(** * Bounded single-producer/single-consumer queues

    A shallow embedding of the three queue classes of the repository

    - [SPSCLockFreeQueue<T, Size>]  (spsc_lockfree_queue.hpp)
    - [LockedQueue<T>]              (locked_queue.hpp)
    - [DoubleBufferSPSC<T>]         (double_buffer_spsc.hpp)

    and the properties stated about them.  The model is sequential: a
    run of the producer and the consumer is a list of method calls, in
    the order in which they take effect.  Every atomic load and store is
    a read or write of a record field; the memory orders play no part.

    Conventions.
    - [size_t] is a 64-bit unsigned integer: a [Z] in [0, 2^64), with
      the wrap-around of [+] and [-] written as [wrap].
    - A C array and a [std::vector] are lists; an access outside the
      bounds is undefined behaviour, modelled as [None].
    - [bool dequeue(T& item)] takes the caller's variable and returns
      the flag together with the variable's value after the call.
    - [std::move] leaves its source in a valid, unspecified state:
      [moved_from v] is what remains in a slot that held [v]. *)

From stdpp Require Import base option list numbers.

Local Open Scope Z_scope.

(** ** Machine integers and arrays *)

Definition SIZE_MAX : Z := 2 ^ 64 - 1.

Definition wrap (z : Z) : Z := z mod 2 ^ 64.

Definition is_size_t (z : Z) : Prop := 0 <= z <= SIZE_MAX.

(** [a[i]] as an rvalue. *)
Definition array_get {T : Type} (a : list T) (i : Z) : option T :=
  if 0 <=? i then a !! Z.to_nat i else None.

(** [a[i] = x]. *)
Definition array_set {T : Type} (a : list T) (i : Z) (x : T) : option (list T) :=
  if (0 <=? i) && (i <? Z.of_nat (length a))
  then Some (<[Z.to_nat i := x]> a) else None.

(** [v.size()], [q.size()]. *)
Definition size_of {T : Type} (a : list T) : Z := Z.of_nat (length a).

(** ** Calls and what the caller observes *)

(** One entry per call: the argument and the returned flag of
    [enqueue]; the returned flag of [dequeue] and the value of the
    caller's variable after it; a [swap_buffers]; the flag returned by
    [buffer_was_swapped]. *)
Inductive outcome (T : Type) : Type :=
| Enqueued (x : T) (ok : bool)
| Dequeued (ok : bool) (item : T)
| Swapped
| WasSwapped (flag : bool).

Arguments Enqueued {T} x ok.
Arguments Dequeued {T} ok item.
Arguments Swapped {T}.
Arguments WasSwapped {T} flag.

(** The values passed to the successful [enqueue] calls, in order. *)
Fixpoint enqueued {T : Type} (log : list (outcome T)) : list T :=
  match log with
  | [] => []
  | Enqueued x true :: log => x :: enqueued log
  | _ :: log => enqueued log
  end.

(** The values returned by the successful [dequeue] calls, in order. *)
Fixpoint dequeued {T : Type} (log : list (outcome T)) : list T :=
  match log with
  | [] => []
  | Dequeued true v :: log => v :: dequeued log
  | _ :: log => dequeued log
  end.

(** The flags returned by the [enqueue] calls, in order. *)
Fixpoint enqueue_flags {T : Type} (log : list (outcome T)) : list bool :=
  match log with
  | [] => []
  | Enqueued _ ok :: log => ok :: enqueue_flags log
  | _ :: log => enqueue_flags log
  end.

(** A run: the calls take effect one after the other on the queue [q];
    [item] is the consumer's variable, handed to every [dequeue]. *)
Section Run.
Context {T Q C : Type}.
Variable step : C -> Q -> T -> option (Q * T * outcome T).

Fixpoint run (calls : list C) (q : Q) (item : T)
  : option (Q * T * list (outcome T)) :=
  match calls with
  | [] => Some (q, item, [])
  | c :: calls =>
      '(q1, item1, o) ← step c q item;
      '(q2, item2, log) ← run calls q1 item1;
      Some (q2, item2, o :: log)
  end.

(** A discipline of the callers: [allowed c q] tells whether the call
    [c] may be made on the queue [q]; [permitted] checks it at every
    call of a run. *)
Variable allowed : C -> Q -> bool.

Fixpoint permitted (calls : list C) (q : Q) (item : T) : bool :=
  match calls with
  | [] => true
  | c :: calls =>
      allowed c q
      && match step c q item with
         | Some (q1, item1, _) => permitted calls q1 item1
         | None => true
         end
  end.

(** Three ways in which single calls can behave, for a predicate
    [inv] on queues and a list [contents] read off a queue.

    - The queue refines a list: every permitted call from a queue
      satisfying [inv] returns, keeps [inv], appends what it accepted
      and removes from the front what it handed out.
    - The same with losses: every call returns and keeps [inv], but
      may drop stored elements.
    - Every permitted call returns, keeps [inv] and has an outcome
      satisfying [good]. *)
Variable inv : Q -> Prop.
Variable contents : Q -> list T.
Variable good : outcome T -> Prop.

Definition fifo_step : Prop :=
  forall c q item, inv q -> allowed c q = true ->
    exists q1 item1 o, step c q item = Some (q1, item1, o) /\ inv q1 /\
      dequeued [o] ++ contents q1 = contents q ++ enqueued [o].

Definition lossy_step : Prop :=
  forall c q item, inv q ->
    exists q1 item1 o, step c q item = Some (q1, item1, o) /\ inv q1 /\
      dequeued [o] ++ contents q1 `sublist_of` contents q ++ enqueued [o].

Definition safe_step : Prop :=
  forall c q item, inv q -> allowed c q = true ->
    exists q1 item1 o, step c q item = Some (q1, item1, o) /\ inv q1 /\
      good o.
End Run.

Definition always {C Q : Type} (c : C) (q : Q) : bool := true.

(** The calls of the two plain queues. *)
Inductive call (T : Type) : Type :=
| Enqueue (x : T)
| Dequeue.

Arguments Enqueue {T} x.
Arguments Dequeue {T}.

(** ** SPSCLockFreeQueue *)

Module SPSC.
Section Queue.
Context {T : Type}.
(** The template parameter [Size]. *)
Variable Size : Z.
Variable moved_from : T -> T.

Record SPSCLockFreeQueue : Type := Build {
  head : Z;
  tail : Z;
  buffer : list T
}.

(** [static_assert((Size & (Size - 1)) == 0)], and an array bound is
    positive. *)
Definition static_assert : Prop :=
  0 < Size <= SIZE_MAX /\ Z.land Size (wrap (Size - 1)) = 0.

Definition MASK : Z := wrap (Size - 1).

(** The constructor sets both indices to zero; the [Size] slots hold
    whatever default initialisation of [T] gives, here [slots]. *)
Definition construct (slots : list T) : SPSCLockFreeQueue :=
  {| head := 0; tail := 0; buffer := slots |}.

Definition enqueue (q : SPSCLockFreeQueue) (item : T)
  : option (bool * SPSCLockFreeQueue) :=
  let current_tail := tail q in
  let next_tail := Z.land (wrap (current_tail + 1)) MASK in
  if next_tail =? head q then Some (false, q)
  else
    b ← array_set (buffer q) current_tail item;
    Some (true, {| head := head q; tail := next_tail; buffer := b |}).

Definition dequeue (q : SPSCLockFreeQueue) (item : T)
  : option (bool * T * SPSCLockFreeQueue) :=
  let current_head := head q in
  if current_head =? tail q then Some (false, item, q)
  else
    v ← array_get (buffer q) current_head;
    b ← array_set (buffer q) current_head (moved_from v);
    Some (true, v,
          {| head := Z.land (wrap (current_head + 1)) MASK;
             tail := tail q; buffer := b |}).

Definition empty (q : SPSCLockFreeQueue) : bool := head q =? tail q.

Definition full (q : SPSCLockFreeQueue) : bool :=
  let current_tail := tail q in
  let next_tail := Z.land (wrap (current_tail + 1)) MASK in
  next_tail =? head q.

Definition size (q : SPSCLockFreeQueue) : Z :=
  let current_head := head q in
  let current_tail := tail q in
  Z.land (wrap (current_tail - current_head)) MASK.

Definition capacity : Z := wrap (Size - 1).

Definition step (c : call T) (q : SPSCLockFreeQueue) (item : T)
  : option (SPSCLockFreeQueue * T * outcome T) :=
  match c with
  | Enqueue x =>
      '(ok, q') ← enqueue q x; Some (q', item, Enqueued x ok)
  | Dequeue =>
      '(ok, item', q') ← dequeue q item; Some (q', item', Dequeued ok item')
  end.

(** The states a freshly constructed queue can get into. *)
Inductive reachable : SPSCLockFreeQueue -> Prop :=
| reach_construct slots :
    length slots = Z.to_nat Size -> reachable (construct slots)
| reach_enqueue q x ok q' :
    reachable q -> enqueue q x = Some (ok, q') -> reachable q'
| reach_dequeue q item ok item' q' :
    reachable q -> dequeue q item = Some (ok, item', q') -> reachable q'.

(** Both indices address a slot of the array. *)
Definition wf (q : SPSCLockFreeQueue) : Prop :=
  0 <= head q < Size /\ 0 <= tail q < Size /\
  length (buffer q) = Z.to_nat Size.

(** The number of elements stored, and the elements themselves, oldest
    first: the slots [head], [head + 1], ... up to [tail], around the
    ring. *)
Definition count (q : SPSCLockFreeQueue) : Z := (tail q - head q) mod Size.

Definition contents (q : SPSCLockFreeQueue) : list T :=
  omap (fun i : nat => buffer q !! Z.to_nat ((head q + Z.of_nat i) mod Size))
       (seq 0 (Z.to_nat (count q))).
End Queue.
End SPSC.

(** ** LockedQueue *)

Module Locked.
Section Queue.
Context {T : Type}.

(** [queue_] is the [std::queue], front first.  The mutex is held for
    the whole body of every method, so each call is one step. *)
Record LockedQueue : Type := Build {
  queue_ : list T;
  max_size_ : Z
}.

Definition construct (max_size : Z) : LockedQueue :=
  {| queue_ := []; max_size_ := max_size |}.

(** [notify_one] wakes a consumer waiting in [dequeue_blocking]; it
    changes nothing in the queue. *)
Definition enqueue (q : LockedQueue) (item : T) : bool * LockedQueue :=
  if size_of (queue_ q) >=? max_size_ q then (false, q)
  else (true, {| queue_ := queue_ q ++ [item]; max_size_ := max_size_ q |}).

(** [queue_.empty()] is the first branch; [front()] and [pop()] are
    the second. *)
Definition dequeue (q : LockedQueue) (item : T) : bool * T * LockedQueue :=
  match queue_ q with
  | [] => (false, item, q)
  | front :: rest =>
      (true, front, {| queue_ := rest; max_size_ := max_size_ q |})
  end.

Definition empty (q : LockedQueue) : bool :=
  match queue_ q with [] => true | _ => false end.

Definition full (q : LockedQueue) : bool :=
  size_of (queue_ q) >=? max_size_ q.

Definition size (q : LockedQueue) : Z := size_of (queue_ q).

Definition capacity (q : LockedQueue) : Z := max_size_ q.

Definition step (c : call T) (q : LockedQueue) (item : T)
  : option (LockedQueue * T * outcome T) :=
  match c with
  | Enqueue x =>
      let '(ok, q') := enqueue q x in Some (q', item, Enqueued x ok)
  | Dequeue =>
      let '(ok, item', q') := dequeue q item in
      Some (q', item', Dequeued ok item')
  end.

Definition contents (q : LockedQueue) : list T := queue_ q.

(** What the producer does while the consumer waits: a row of calls of
    [enqueue], each under the mutex. *)
Definition producer_calls (q : LockedQueue) (xs : list T) : LockedQueue :=
  fold_left (fun q x => (enqueue q x).2) xs q.

(** [dequeue_blocking]: [while (queue_.empty()) condition_.wait(lock);]
    and then [front()] and [pop()].  Each [wait] gives up the mutex and
    takes it again at the wake-up; [arrivals] lists, per wake-up, the
    values the producer has tried to enqueue in between, an empty row
    being a spurious wake-up.  [None]: the call is still waiting when
    the list is used up.  The result holds the new value of the caller's
    variable, the queue and the wake-ups not used. *)
Fixpoint dequeue_blocking (arrivals : list (list T)) (q : LockedQueue)
  : option (T * LockedQueue * list (list T)) :=
  match queue_ q with
  | front :: rest =>
      Some (front, {| queue_ := rest; max_size_ := max_size_ q |}, arrivals)
  | [] =>
      match arrivals with
      | [] => None
      | xs :: arrivals => dequeue_blocking arrivals (producer_calls q xs)
      end
  end.
End Queue.
End Locked.

(** ** DoubleBufferSPSC *)

Module DoubleBuffer.

(** The two values [write_buffer_] and [read_buffer_] ever hold:
    [&buffer1_] and [&buffer2_]. *)
Inductive buffer_ptr : Type := Buffer1 | Buffer2.

Inductive call (T : Type) : Type :=
| CEnqueue (x : T)
| CSwapBuffers
| CDequeue
| CBufferWasSwapped.

Arguments CEnqueue {T} x.
Arguments CSwapBuffers {T}.
Arguments CDequeue {T}.
Arguments CBufferWasSwapped {T}.

Section Queue.
Context {T : Type}.
Variable moved_from : T -> T.

Record DoubleBufferSPSC : Type := Build {
  buffer1_ : list T;
  buffer2_ : list T;
  write_buffer_ : buffer_ptr;
  read_buffer_ : buffer_ptr;
  buffer_swapped_ : bool;
  write_index_ : Z;
  read_index_ : Z;
  max_size_ : Z
}.

(** [*p] as an rvalue, and the assignment [*p = v]: both pointers
    address the two vectors of the same object, so a write through
    one is seen through the other when they are equal. *)
Definition deref (q : DoubleBufferSPSC) (p : buffer_ptr) : list T :=
  match p with Buffer1 => buffer1_ q | Buffer2 => buffer2_ q end.

Definition assign (q : DoubleBufferSPSC) (p : buffer_ptr) (v : list T)
  : DoubleBufferSPSC :=
  match p with
  | Buffer1 =>
      Build v (buffer2_ q) (write_buffer_ q) (read_buffer_ q)
            (buffer_swapped_ q) (write_index_ q) (read_index_ q) (max_size_ q)
  | Buffer2 =>
      Build (buffer1_ q) v (write_buffer_ q) (read_buffer_ q)
            (buffer_swapped_ q) (write_index_ q) (read_index_ q) (max_size_ q)
  end.

Definition store_write_buffer (q : DoubleBufferSPSC) (p : buffer_ptr) :=
  Build (buffer1_ q) (buffer2_ q) p (read_buffer_ q)
        (buffer_swapped_ q) (write_index_ q) (read_index_ q) (max_size_ q).

Definition store_read_buffer (q : DoubleBufferSPSC) (p : buffer_ptr) :=
  Build (buffer1_ q) (buffer2_ q) (write_buffer_ q) p
        (buffer_swapped_ q) (write_index_ q) (read_index_ q) (max_size_ q).

Definition store_read_index (q : DoubleBufferSPSC) (i : Z) :=
  Build (buffer1_ q) (buffer2_ q) (write_buffer_ q) (read_buffer_ q)
        (buffer_swapped_ q) (write_index_ q) i (max_size_ q).

Definition store_buffer_swapped (q : DoubleBufferSPSC) (b : bool) :=
  Build (buffer1_ q) (buffer2_ q) (write_buffer_ q) (read_buffer_ q)
        b (write_index_ q) (read_index_ q) (max_size_ q).

(** [reserve] changes no size. *)
Definition construct (max_size : Z) : DoubleBufferSPSC :=
  {| buffer1_ := []; buffer2_ := [];
     write_buffer_ := Buffer1; read_buffer_ := Buffer2;
     buffer_swapped_ := false; write_index_ := 0; read_index_ := 0;
     max_size_ := max_size |}.

Definition enqueue (q : DoubleBufferSPSC) (item : T)
  : bool * DoubleBufferSPSC :=
  let current_write_buffer := write_buffer_ q in
  if size_of (deref q current_write_buffer) >=? max_size_ q then (false, q)
  else
    (true, assign q current_write_buffer
                  (deref q current_write_buffer ++ [item])).

Definition swap_buffers (q : DoubleBufferSPSC) : DoubleBufferSPSC :=
  let current_write := write_buffer_ q in
  let current_read := read_buffer_ q in
  let q := store_write_buffer q current_read in
  let q := store_read_buffer q current_write in
  let q := assign q current_read [] in
  let q := store_read_index q 0 in
  store_buffer_swapped q true.

Definition dequeue (q : DoubleBufferSPSC) (item : T)
  : option (bool * T * DoubleBufferSPSC) :=
  let current_read_buffer := read_buffer_ q in
  let current_read_index := read_index_ q in
  if current_read_index >=? size_of (deref q current_read_buffer)
  then Some (false, item, q)
  else
    v ← array_get (deref q current_read_buffer) current_read_index;
    b ← array_set (deref q current_read_buffer) current_read_index
                  (moved_from v);
    Some (true, v,
          store_read_index (assign q current_read_buffer b)
                           (wrap (current_read_index + 1))).

Definition has_data (q : DoubleBufferSPSC) : bool :=
  read_index_ q <? size_of (deref q (read_buffer_ q)).

Definition write_buffer_full (q : DoubleBufferSPSC) : bool :=
  size_of (deref q (write_buffer_ q)) >=? max_size_ q.

Definition write_buffer_size (q : DoubleBufferSPSC) : Z :=
  size_of (deref q (write_buffer_ q)).

Definition read_buffer_remaining (q : DoubleBufferSPSC) : Z :=
  wrap (size_of (deref q (read_buffer_ q)) - read_index_ q).

Definition capacity (q : DoubleBufferSPSC) : Z := max_size_ q.

(** [buffer_swapped_.exchange(false)]. *)
Definition buffer_was_swapped (q : DoubleBufferSPSC)
  : bool * DoubleBufferSPSC :=
  (buffer_swapped_ q, store_buffer_swapped q false).

Definition step (c : call T) (q : DoubleBufferSPSC) (item : T)
  : option (DoubleBufferSPSC * T * outcome T) :=
  match c with
  | CEnqueue x =>
      let '(ok, q') := enqueue q x in Some (q', item, Enqueued x ok)
  | CSwapBuffers => Some (swap_buffers q, item, Swapped)
  | CDequeue =>
      '(ok, item', q') ← dequeue q item; Some (q', item', Dequeued ok item')
  | CBufferWasSwapped =>
      let '(flag, q') := buffer_was_swapped q in
      Some (q', item, WasSwapped flag)
  end.

(** The producer's discipline: [swap_buffers] is called only when the
    read buffer has been drained. *)
Definition swap_when_drained (c : call T) (q : DoubleBufferSPSC) : bool :=
  match c with CSwapBuffers => negb (has_data q) | _ => true end.

(** Runs without [swap_buffers], and runs of [enqueue] and [dequeue]
    alone. *)
Definition is_swap (c : call T) : bool :=
  match c with CSwapBuffers => true | _ => false end.

Definition is_enqueue_or_dequeue (c : call T) : bool :=
  match c with CEnqueue _ | CDequeue => true | _ => false end.

Definition no_swap (c : call T) (q : DoubleBufferSPSC) : bool :=
  negb (is_swap c).

Definition enqueue_dequeue_only (c : call T) (q : DoubleBufferSPSC) : bool :=
  is_enqueue_or_dequeue c.

(** The flags returned by the calls of [buffer_was_swapped]. *)
Fixpoint swapped_flags (log : list (outcome T)) : list bool :=
  match log with
  | [] => []
  | WasSwapped flag :: log => flag :: swapped_flags log
  | _ :: log => swapped_flags log
  end.

(** The states a freshly constructed queue can get into. *)
Inductive reachable : DoubleBufferSPSC -> Prop :=
| reach_construct max_size :
    is_size_t max_size -> reachable (construct max_size)
| reach_enqueue q x :
    reachable q -> reachable (enqueue q x).2
| reach_swap_buffers q :
    reachable q -> reachable (swap_buffers q)
| reach_dequeue q item ok item' q' :
    reachable q -> dequeue q item = Some (ok, item', q') -> reachable q'
| reach_buffer_was_swapped q :
    reachable q -> reachable (buffer_was_swapped q).2.

(** The two roles are held by different buffers, the read cursor is
    inside the read buffer, and no buffer is longer than [max_size_]. *)
Definition wf (q : DoubleBufferSPSC) : Prop :=
  write_buffer_ q <> read_buffer_ q /\
  0 <= read_index_ q <= size_of (deref q (read_buffer_ q)) /\
  size_of (buffer1_ q) <= max_size_ q /\
  size_of (buffer2_ q) <= max_size_ q /\
  max_size_ q <= SIZE_MAX.

(** What the consumer has still to receive: the rest of the read
    buffer, then the write buffer. *)
Definition unread (q : DoubleBufferSPSC) : list T :=
  drop (Z.to_nat (read_index_ q)) (deref q (read_buffer_ q)).

Definition contents (q : DoubleBufferSPSC) : list T :=
  unread q ++ deref q (write_buffer_ q).
End Queue.
End DoubleBuffer.

(** ** The loops of the callers *)

Module Harness.

(** The consumer's last loop in [benchmark.cpp],

      [while (!producer_done.load() || !queue.empty())
         { if (queue.dequeue(data)) consumed++; else yield(); }]

    once [producer_done] is set; [consumed] is a [size_t], and for
    [DoubleBufferSPSC] the test is [queue.has_data()].  [None]: the fuel
    is used up, or a [dequeue] has left the array. *)
Section Consumer.
Context {T Q : Type}.
Variable queue_empty : Q -> bool.
Variable queue_dequeue : Q -> T -> option (bool * T * Q).

Fixpoint consume_rest (fuel : nat) (q : Q) (data : T) (consumed : Z)
  : option (Q * T * Z) :=
  match fuel with
  | O => None
  | S fuel =>
      if negb (queue_empty q) then
        '(ok, data', q') ← queue_dequeue q data;
        consume_rest fuel q' data'
                     (if ok : bool then wrap (consumed + 1) else consumed)
      else Some (q, data, consumed)
  end.
End Consumer.

(** The producer's loop on a [DoubleBufferSPSC],

      [while (!queue.enqueue(msg)) { queue.swap_buffers(); sleep }]

    [None]: the fuel is used up. *)
Fixpoint enqueue_swapping {T : Type} (fuel : nat)
    (q : @DoubleBuffer.DoubleBufferSPSC T) (msg : T)
  : option (@DoubleBuffer.DoubleBufferSPSC T) :=
  match fuel with
  | O => None
  | S fuel =>
      let '(ok, q') := DoubleBuffer.enqueue q msg in
      if ok then Some q'
      else enqueue_swapping fuel (DoubleBuffer.swap_buffers q') msg
  end.
End Harness.

(** The number of [swap_buffers] in a log, and of [buffer_was_swapped]
    that returned true. *)
Fixpoint swap_count {T : Type} (log : list (outcome T)) : nat :=
  match log with
  | [] => O
  | Swapped :: log => S (swap_count log)
  | _ :: log => swap_count log
  end.

Fixpoint seen_count {T : Type} (log : list (outcome T)) : nat :=
  match log with
  | [] => O
  | WasSwapped true :: log => S (seen_count log)
  | _ :: log => seen_count log
  end.

(** ** Sample states *)

Module Samples.
(** A ring of four slots after enqueue(2), dequeue, enqueue(3),
    enqueue(4), enqueue(5), with [moved_from] leaving 0: it is full. *)
Definition full_ring : @SPSC.SPSCLockFreeQueue Z :=
  SPSC.Build 1 0 [0; 3; 4; 5].

Definition empty_ring : @SPSC.SPSCLockFreeQueue Z :=
  SPSC.Build 2 2 [0; 0; 0; 0].

Definition full_locked : @Locked.LockedQueue Z := Locked.Build [1; 2] 2.

Definition empty_locked : @Locked.LockedQueue Z := Locked.Build [] 2.

(** A double buffer whose write buffer is full and whose read buffer is
    empty, and one in the middle of a batch. *)
Definition full_double : @DoubleBuffer.DoubleBufferSPSC Z :=
  DoubleBuffer.Build [1; 2] [] DoubleBuffer.Buffer1 DoubleBuffer.Buffer2
                     false 0 0 2.

Definition busy_double : @DoubleBuffer.DoubleBufferSPSC Z :=
  DoubleBuffer.Build [1; 2] [3; 4; 5] DoubleBuffer.Buffer1
                     DoubleBuffer.Buffer2 false 0 3 8.

Definition started_double : @DoubleBuffer.DoubleBufferSPSC Z :=
  (DoubleBuffer.enqueue (DoubleBuffer.construct 4) 5).2.

(** Runs that leave elements in the queue: for the ring, past the
    wrap-around of [tail]; for the double buffer, with swaps on a
    drained read buffer only. *)
Definition ring_calls : list (call Z) :=
  [Enqueue 1; Enqueue 2; Enqueue 3; Dequeue; Dequeue; Enqueue 4; Enqueue 5].

Definition locked_calls : list (call Z) :=
  [Enqueue 1; Enqueue 2; Enqueue 3; Dequeue; Enqueue 4].

Definition double_calls : list (DoubleBuffer.call Z) :=
  [DoubleBuffer.CEnqueue 1; DoubleBuffer.CEnqueue 2;
   DoubleBuffer.CSwapBuffers; DoubleBuffer.CEnqueue 3;
   DoubleBuffer.CDequeue; DoubleBuffer.CDequeue;
   DoubleBuffer.CSwapBuffers; DoubleBuffer.CEnqueue 4].
End Samples.

(** * Properties *)

(** ** size_t arithmetic *)

Lemma wrap_small z : is_size_t z -> wrap z = z.
Proof. unfold is_size_t, SIZE_MAX, wrap. intros ?. apply Z.mod_small. lia. Qed.

(** A positive [n] with [n & (n - 1) == 0] is a power of two. *)
Lemma land_pred_pow2 n :
  0 < n -> Z.land n (n - 1) = 0 -> exists k, 0 <= k /\ n = 2 ^ k.
Proof.
  intros Hn Hland. exists (Z.log2 n). split; [apply Z.log2_nonneg|].
  destruct (Z.log2_spec n Hn) as [Hlo Hhi].
  destruct (Z.eq_dec n (2 ^ Z.log2 n)) as [|Hne]; [done|]. exfalso.
  assert (0 < 2 ^ Z.log2 n)
    by (apply Z.pow_pos_nonneg; [lia | apply Z.log2_nonneg]).
  assert (Hk : Z.log2 (n - 1) = Z.log2 n).
  { apply Z.log2_unique; [apply Z.log2_nonneg | lia]. }
  assert (Hbit : Z.testbit (Z.land n (n - 1)) (Z.log2 n) = true).
  { rewrite Z.land_spec, Z.bit_log2 by done.
    rewrite <- Hk, Z.bit_log2 by lia. done. }
  rewrite Hland, Z.bits_0 in Hbit. done.
Qed.

Lemma mod_sub_once x n : n <= x < 2 * n -> x mod n = x - n.
Proof.
  intros ?. symmetry. apply (Z.mod_unique_pos x n 1); lia.
Qed.

Lemma mod_add_once x n : - n <= x < 0 -> x mod n = x + n.
Proof.
  intros ?. symmetry. apply (Z.mod_unique_pos x n (-1)); lia.
Qed.

Section SPSCArith.
Variable Size : Z.
Hypothesis HSize : SPSC.static_assert Size.

Lemma Size_pos : 0 < Size <= SIZE_MAX.
Proof. apply HSize. Qed.

Lemma Size_pow2 : exists k, 0 <= k /\ Size = 2 ^ k.
Proof.
  destruct HSize as [Hr Hl]. apply land_pred_pow2; [lia|].
  rewrite wrap_small in Hl; [done | unfold is_size_t; lia].
Qed.

Lemma MASK_eq : SPSC.MASK Size = Size - 1.
Proof.
  unfold SPSC.MASK. apply wrap_small. pose proof Size_pos.
  unfold is_size_t. lia.
Qed.

Lemma capacity_eq : SPSC.capacity Size = Size - 1.
Proof. apply MASK_eq. Qed.

(** Masking with [MASK] is the remainder modulo [Size]. *)
Lemma land_MASK x : Z.land x (SPSC.MASK Size) = x mod Size.
Proof.
  rewrite MASK_eq. destruct Size_pow2 as (k & Hk & ->).
  rewrite <- Z.land_ones by done. by rewrite Z.ones_equiv, <- Z.sub_1_r.
Qed.

(** The index after [i], as [enqueue] and [dequeue] compute it. *)
Lemma next_index i :
  0 <= i < Size -> Z.land (wrap (i + 1)) (SPSC.MASK Size) = (i + 1) mod Size.
Proof.
  intros ?. pose proof Size_pos. rewrite land_MASK, wrap_small; [done|].
  unfold is_size_t. lia.
Qed.

Lemma Size_divides : (Size | 2 ^ 64).
Proof.
  destruct Size_pow2 as (k & Hk & Hs). pose proof Size_pos as HS.
  assert (k < 64).
  { apply (Z.pow_lt_mono_r_iff 2); [lia..|].
    rewrite <- Hs. unfold SIZE_MAX in HS. lia. }
  exists (2 ^ (64 - k)). rewrite Hs, <- Z.pow_add_r by lia. f_equal. lia.
Qed.
End SPSCArith.

(** ** Logs and runs *)

Lemma enqueued_app {T} (l1 l2 : list (outcome T)) :
  enqueued (l1 ++ l2) = enqueued l1 ++ enqueued l2.
Proof.
  induction l1 as [|[x [|]|ok v| |f] l1 IH]; simpl; by rewrite ?IH.
Qed.

Lemma dequeued_app {T} (l1 l2 : list (outcome T)) :
  dequeued (l1 ++ l2) = dequeued l1 ++ dequeued l2.
Proof.
  induction l1 as [|[x ok|[|] v| |f] l1 IH]; simpl; by rewrite ?IH.
Qed.

Lemma enqueue_flags_app {T} (l1 l2 : list (outcome T)) :
  enqueue_flags (l1 ++ l2) = enqueue_flags l1 ++ enqueue_flags l2.
Proof.
  induction l1 as [|[x ok|ok v| |f] l1 IH]; simpl; by rewrite ?IH.
Qed.

Lemma enqueue_flags_accepted {T} (xs : list T) :
  enqueue_flags ((fun x => Enqueued x true) <$> xs) = replicate (length xs) true.
Proof.
  induction xs as [|x xs IH]; [done|].
  rewrite fmap_cons. cbn [enqueue_flags length replicate]. by rewrite IH.
Qed.

Section RunFacts.
Context {T Q C : Type}.
Variable step : C -> Q -> T -> option (Q * T * outcome T).

Lemma run_cons c calls q item q1 item1 o q2 item2 log :
  step c q item = Some (q1, item1, o) ->
  run step calls q1 item1 = Some (q2, item2, log) ->
  run step (c :: calls) q item = Some (q2, item2, o :: log).
Proof. intros Hs Hr. simpl. rewrite Hs. simpl. by rewrite Hr. Qed.

Lemma run_app calls1 calls2 q item q1 item1 log1 q2 item2 log2 :
  run step calls1 q item = Some (q1, item1, log1) ->
  run step calls2 q1 item1 = Some (q2, item2, log2) ->
  run step (calls1 ++ calls2) q item = Some (q2, item2, log1 ++ log2).
Proof.
  revert q item log1.
  induction calls1 as [|c calls1 IH]; intros q item log1 H1 H2; simpl in *.
  - by simplify_eq.
  - destruct (step c q item) as [[[qa ia] o]|]; simpl in *; [|done].
    destruct (run step calls1 qa ia) as [[[qb ib] lb]|] eqn:E; simpl in *;
      [|done].
    simplify_eq. by rewrite (IH _ _ _ E H2).
Qed.

Lemma permitted_always calls q item :
  permitted step always calls q item = true.
Proof.
  revert q item. induction calls as [|c calls IH]; intros q item; [done|].
  simpl. by destruct (step c q item) as [[[q1 item1] o]|].
Qed.

(** A discipline that does not look at the queue is a property of
    the calls. *)
Lemma permitted_forallb (allowed : C -> Q -> bool) (f : C -> bool)
    calls q item :
  (forall c q, allowed c q = f c) ->
  forallb f calls = true ->
  permitted step allowed calls q item = true.
Proof.
  intros Hf. revert q item.
  induction calls as [|c calls IH]; intros q item Hall; [done|].
  simpl in *. apply andb_true_iff in Hall as [Hc Hall].
  rewrite Hf, Hc. simpl.
  destruct (step c q item) as [[[q1 item1] o]|]; [by apply IH | done].
Qed.

Variable allowed : C -> Q -> bool.
Variable inv : Q -> Prop.
Variable contents : Q -> list T.

(** A queue that refines a list hands out what was put in. *)
Lemma run_fifo :
  fifo_step step allowed inv contents ->
  forall calls q item, inv q -> permitted step allowed calls q item = true ->
    exists q2 item2 log, run step calls q item = Some (q2, item2, log) /\
      inv q2 /\ dequeued log ++ contents q2 = contents q ++ enqueued log.
Proof.
  intros Hstep calls.
  induction calls as [|c calls IH]; intros q item Hq Hp.
  - exists q, item, []. simpl. by rewrite app_nil_r.
  - simpl in Hp. apply andb_true_iff in Hp as [Hc Hp].
    destruct (Hstep c q item Hq Hc) as (q1 & item1 & o & Hs & Hq1 & Ho).
    rewrite Hs in Hp.
    destruct (IH q1 item1 Hq1 Hp) as (q2 & item2 & log & Hr & Hq2 & Hl).
    exists q2, item2, (o :: log). split; [by eapply run_cons|].
    split; [done|].
    change (o :: log) with ([o] ++ log).
    rewrite dequeued_app, enqueued_app, <- (assoc_L (++)), Hl.
    by rewrite !(assoc_L (++)), Ho.
Qed.

(** With losses, what comes out is what went in with some elements
    left out, still in order. *)
Lemma run_lossy :
  lossy_step step inv contents ->
  forall calls q item, inv q ->
    exists q2 item2 log, run step calls q item = Some (q2, item2, log) /\
      inv q2 /\
      dequeued log ++ contents q2 `sublist_of` contents q ++ enqueued log.
Proof.
  intros Hstep calls.
  induction calls as [|c calls IH]; intros q item Hq.
  - exists q, item, []. simpl. by rewrite app_nil_r.
  - destruct (Hstep c q item Hq) as (q1 & item1 & o & Hs & Hq1 & Ho).
    destruct (IH q1 item1 Hq1) as (q2 & item2 & log & Hr & Hq2 & Hl).
    exists q2, item2, (o :: log). split; [by eapply run_cons|].
    split; [done|].
    change (o :: log) with ([o] ++ log).
    rewrite dequeued_app, enqueued_app, <- (assoc_L (++)).
    trans (dequeued [o] ++ contents q1 ++ enqueued log).
    + by apply sublist_app.
    + rewrite !(assoc_L (++)). by apply sublist_app.
Qed.

(** Permitted calls keep an invariant and have good outcomes. *)
Variable good : outcome T -> Prop.

Lemma run_safe :
  safe_step step allowed inv good ->
  forall calls q item, inv q -> permitted step allowed calls q item = true ->
    exists q2 item2 log, run step calls q item = Some (q2, item2, log) /\
      inv q2 /\ Forall good log.
Proof.
  intros Hstep calls.
  induction calls as [|c calls IH]; intros q item Hq Hp.
  - by exists q, item, [].
  - simpl in Hp. apply andb_true_iff in Hp as [Hc Hp].
    destruct (Hstep c q item Hq Hc) as (q1 & item1 & o & Hs & Hq1 & Ho).
    rewrite Hs in Hp.
    destruct (IH q1 item1 Hq1 Hp) as (q2 & item2 & log & Hr & Hq2 & Hl).
    exists q2, item2, (o :: log). split; [by eapply run_cons|].
    split; [done|]. by constructor.
Qed.
End RunFacts.

(** ** Lists read through a partial function *)

Lemma omap_step {A B} (f : A -> option B) x l :
  omap f (x :: l) =
    match f x with Some y => y :: omap f l | None => omap f l end.
Proof. done. Qed.

Lemma omap_seq_shift {A} (f g : nat -> option A) n a b :
  (forall i, (i < n)%nat -> f (a + i)%nat = g (b + i)%nat) ->
  omap f (seq a n) = omap g (seq b n).
Proof.
  revert a b. induction n as [|n IH]; intros a b Hfg; [done|].
  cbn [seq]. rewrite !omap_step.
  pose proof (Hfg 0%nat ltac:(lia)) as H0.
  rewrite !Nat.add_0_r in H0. rewrite H0.
  rewrite (IH (S a) (S b)); [done|].
  intros i Hi. specialize (Hfg (S i) ltac:(lia)).
  by rewrite !Nat.add_succ_r in Hfg.
Qed.

Lemma omap_seq_length {A} (f : nat -> option A) n a :
  (forall i, (i < n)%nat -> is_Some (f (a + i)%nat)) ->
  length (omap f (seq a n)) = n.
Proof.
  revert a. induction n as [|n IH]; intros a Hf; [done|].
  cbn [seq]. rewrite omap_step.
  destruct (Hf 0%nat ltac:(lia)) as [v Hv].
  rewrite Nat.add_0_r in Hv. rewrite Hv. simpl. f_equal.
  apply IH. intros i Hi. specialize (Hf (S i) ltac:(lia)).
  by rewrite Nat.add_succ_r in Hf.
Qed.

(** ** SPSCLockFreeQueue: the ring and the list it holds *)

Section SPSCFacts.
Context {T : Type}.
Variable Size : Z.
Variable moved_from : T -> T.
Hypothesis HSize : SPSC.static_assert Size.

Implicit Types q : @SPSC.SPSCLockFreeQueue T.

Lemma mod_cases x :
  - Size <= x < 2 * Size ->
  (x < 0 /\ x mod Size = x + Size) \/
  (0 <= x < Size /\ x mod Size = x) \/
  (Size <= x /\ x mod Size = x - Size).
Proof.
  intros Hx. pose proof (Size_pos Size HSize).
  destruct (Z_lt_le_dec x 0); [left|right].
  - split; [done|]. apply mod_add_once. lia.
  - destruct (Z_lt_le_dec x Size); [left|right].
    + split; [lia|]. apply Z.mod_small. lia.
    + split; [done|]. apply mod_sub_once. lia.
Qed.

Lemma wf_construct (slots : list T) :
  length slots = Z.to_nat Size -> SPSC.wf Size (SPSC.construct slots).
Proof.
  intros Hl. pose proof (Size_pos Size HSize). unfold SPSC.wf. simpl. lia.
Qed.

Lemma array_set_wf q i (x : T) :
  SPSC.wf Size q -> 0 <= i < Size ->
  array_set (SPSC.buffer q) i x = Some (<[Z.to_nat i := x]> (SPSC.buffer q)).
Proof.
  intros (_ & _ & Hl) Hi. unfold array_set. rewrite Hl.
  rewrite Z2Nat.id by lia.
  destruct (Z.leb_spec 0 i); [|lia]. destruct (Z.ltb_spec i Size); [|lia].
  done.
Qed.

Lemma array_get_wf q i :
  SPSC.wf Size q -> 0 <= i < Size ->
  exists v, SPSC.buffer q !! Z.to_nat i = Some v /\
            array_get (SPSC.buffer q) i = Some v.
Proof.
  intros (_ & _ & Hl) Hi. unfold array_get.
  destruct (Z.leb_spec 0 i); [|lia].
  destruct (lookup_lt_is_Some_2 (SPSC.buffer q) (Z.to_nat i)) as [v Hv];
    [lia|]. by exists v.
Qed.

(** What [enqueue] and [dequeue] do when both indices are in range. *)
Lemma enqueue_wf q x :
  SPSC.wf Size q ->
  SPSC.enqueue Size q x =
    if (SPSC.tail q + 1) mod Size =? SPSC.head q then Some (false, q)
    else Some (true, SPSC.Build (SPSC.head q) ((SPSC.tail q + 1) mod Size)
                       (<[Z.to_nat (SPSC.tail q) := x]> (SPSC.buffer q))).
Proof.
  intros Hq. pose proof Hq as (Hh & Ht & Hl). unfold SPSC.enqueue.
  rewrite next_index by done.
  destruct (_ =? _); [done|]. by rewrite array_set_wf.
Qed.

Lemma dequeue_wf q item :
  SPSC.wf Size q ->
  exists v, SPSC.buffer q !! Z.to_nat (SPSC.head q) = Some v /\
    SPSC.dequeue Size moved_from q item =
      if SPSC.head q =? SPSC.tail q then Some (false, item, q)
      else Some (true, v,
                 SPSC.Build ((SPSC.head q + 1) mod Size) (SPSC.tail q)
                   (<[Z.to_nat (SPSC.head q) := moved_from v]>
                      (SPSC.buffer q))).
Proof.
  intros Hq. pose proof Hq as (Hh & Ht & Hl).
  destruct (array_get_wf q (SPSC.head q) Hq Hh) as (v & Hv & Hg).
  exists v. split; [done|]. unfold SPSC.dequeue.
  destruct (_ =? _); [done|].
  rewrite Hg. simpl. rewrite array_set_wf by done. simpl.
  by rewrite next_index.
Qed.

Lemma count_cases q :
  SPSC.wf Size q ->
  (SPSC.head q <= SPSC.tail q /\
   SPSC.count Size q = SPSC.tail q - SPSC.head q) \/
  (SPSC.tail q < SPSC.head q /\
   SPSC.count Size q = SPSC.tail q - SPSC.head q + Size).
Proof.
  intros (Hh & Ht & _). unfold SPSC.count.
  destruct (mod_cases (SPSC.tail q - SPSC.head q)) as [|[|]]; lia.
Qed.

Lemma count_range q : SPSC.wf Size q -> 0 <= SPSC.count Size q < Size.
Proof.
  intros Hq. pose proof Hq as (Hh & Ht & _).
  destruct (count_cases q Hq); lia.
Qed.

Lemma count_empty q :
  SPSC.wf Size q -> SPSC.head q = SPSC.tail q <-> SPSC.count Size q = 0.
Proof.
  intros Hq. pose proof Hq as (Hh & Ht & _).
  destruct (count_cases q Hq); lia.
Qed.

Lemma count_full q :
  SPSC.wf Size q ->
  (SPSC.tail q + 1) mod Size = SPSC.head q <->
  SPSC.count Size q = Size - 1.
Proof.
  intros Hq. pose proof Hq as (Hh & Ht & _).
  destruct (count_cases q Hq);
    destruct (mod_cases (SPSC.tail q + 1)) as [|[|]]; lia.
Qed.

(** [size()] is the number of elements stored. *)
Lemma size_count q : SPSC.size Size q = SPSC.count Size q.
Proof.
  unfold SPSC.size, SPSC.count, wrap. rewrite (land_MASK Size HSize).
  apply Z.mod_mod_divide, (Size_divides Size HSize).
Qed.

(** The slot of the [i]-th stored element. *)
Lemma slot_range q i :
  SPSC.wf Size q -> 0 <= i < Size ->
  0 <= (SPSC.head q + i) mod Size < Size.
Proof. intros (Hh & _) Hi. apply Z.mod_pos_bound. lia. Qed.

Lemma slot_inj q i j :
  SPSC.wf Size q -> 0 <= i < Size -> 0 <= j < Size ->
  (SPSC.head q + i) mod Size = (SPSC.head q + j) mod Size -> i = j.
Proof.
  intros (Hh & _) Hi Hj.
  destruct (mod_cases (SPSC.head q + i)) as [|[|]]; [lia..| |];
    destruct (mod_cases (SPSC.head q + j)) as [|[|]]; lia.
Qed.

Lemma slot_tail q :
  SPSC.wf Size q ->
  (SPSC.head q + SPSC.count Size q) mod Size = SPSC.tail q.
Proof.
  intros Hq. pose proof Hq as (Hh & Ht & _).
  destruct (count_cases q Hq);
    destruct (mod_cases (SPSC.head q + SPSC.count Size q)) as [|[|]]; lia.
Qed.

Lemma length_contents q :
  SPSC.wf Size q ->
  length (SPSC.contents Size q) = Z.to_nat (SPSC.count Size q).
Proof.
  intros Hq. pose proof (count_range q Hq). pose proof Hq as (_ & _ & Hl).
  unfold SPSC.contents. apply omap_seq_length. intros i Hi.
  apply lookup_lt_is_Some_2. simpl.
  pose proof (slot_range q (Z.of_nat i) Hq). lia.
Qed.

Lemma contents_construct (slots : list T) :
  SPSC.contents Size (SPSC.construct slots) = [].
Proof.
  unfold SPSC.contents.
  change (SPSC.count Size (SPSC.construct slots)) with (0 mod Size).
  by rewrite Zmod_0_l.
Qed.

(** [enqueue] refuses exactly when [Size - 1] elements are stored;
    otherwise it appends its argument. *)
Lemma enqueue_spec q x :
  SPSC.wf Size q ->
  (SPSC.count Size q = Size - 1 /\
   SPSC.enqueue Size q x = Some (false, q)) \/
  (SPSC.count Size q < Size - 1 /\
   exists q', SPSC.enqueue Size q x = Some (true, q') /\
     SPSC.wf Size q' /\
     SPSC.count Size q' = SPSC.count Size q + 1 /\
     SPSC.contents Size q' = SPSC.contents Size q ++ [x]).
Proof.
  intros Hq. pose proof Hq as (Hh & Ht & Hl).
  pose proof (count_range q Hq) as Hc.
  pose proof (count_full q Hq) as Hfull.
  rewrite enqueue_wf by done.
  destruct (Z.eqb_spec ((SPSC.tail q + 1) mod Size) (SPSC.head q)) as [E|E].
  { left. split; [by apply Hfull | done]. }
  right. split; [lia|]. eexists. split; [done|].
  set (q' := SPSC.Build _ _ _).
  assert (Hq' : SPSC.wf Size q').
  { unfold SPSC.wf. simpl. rewrite length_insert.
    pose proof (Z.mod_pos_bound (SPSC.tail q + 1) Size ltac:(lia)). lia. }
  assert (Hc' : SPSC.count Size q' = SPSC.count Size q + 1).
  { destruct (count_cases q Hq); destruct (count_cases q' Hq');
      simpl in *; destruct (mod_cases (SPSC.tail q + 1)) as [|[|]]; lia. }
  split_and!; [done..|].
  unfold SPSC.contents. rewrite Hc'.
  replace (Z.to_nat (SPSC.count Size q + 1))
    with (Z.to_nat (SPSC.count Size q) + 1)%nat by lia.
  rewrite seq_app, omap_app. f_equal.
  - apply omap_seq_shift. intros i Hi. simpl.
    apply list_lookup_insert_ne. intros Heq.
    pose proof (slot_range q (Z.of_nat i) Hq ltac:(lia)).
    apply Z2Nat.inj in Heq; [|lia..].
    rewrite <- (slot_tail q Hq) in Heq.
    apply (slot_inj q) in Heq; [lia|done|lia..].
  - simpl. rewrite Z2Nat.id by lia. rewrite (slot_tail q Hq).
    rewrite list_lookup_insert_eq; [done | lia].
Qed.

(** [dequeue] refuses exactly when nothing is stored; otherwise it
    returns the oldest element and removes it. *)
Lemma dequeue_spec q item :
  SPSC.wf Size q ->
  (SPSC.count Size q = 0 /\
   SPSC.dequeue Size moved_from q item = Some (false, item, q)) \/
  (0 < SPSC.count Size q /\
   exists v q', SPSC.dequeue Size moved_from q item = Some (true, v, q') /\
     SPSC.wf Size q' /\
     SPSC.count Size q' = SPSC.count Size q - 1 /\
     SPSC.contents Size q = v :: SPSC.contents Size q').
Proof.
  intros Hq. pose proof Hq as (Hh & Ht & Hl).
  pose proof (count_range q Hq) as Hc.
  pose proof (count_empty q Hq) as Hempty.
  destruct (dequeue_wf q item Hq) as (v & Hv & ->).
  destruct (Z.eqb_spec (SPSC.head q) (SPSC.tail q)) as [E|E].
  { left. split; [by apply Hempty | done]. }
  right. split; [lia|]. eexists v, _. split; [done|].
  set (q' := SPSC.Build _ _ _).
  assert (Hq' : SPSC.wf Size q').
  { unfold SPSC.wf. simpl. rewrite length_insert.
    pose proof (Z.mod_pos_bound (SPSC.head q + 1) Size ltac:(lia)). lia. }
  assert (Hc' : SPSC.count Size q' = SPSC.count Size q - 1).
  { destruct (count_cases q Hq); destruct (count_cases q' Hq');
      simpl in *; destruct (mod_cases (SPSC.head q + 1)) as [|[|]]; lia. }
  split_and!; [done..|].
  unfold SPSC.contents. rewrite Hc'.
  replace (Z.to_nat (SPSC.count Size q))
    with (S (Z.to_nat (SPSC.count Size q - 1))) by lia.
  cbn [seq]. rewrite omap_step.
  rewrite Z.add_0_r, Z.mod_small, Hv by lia. f_equal.
  apply omap_seq_shift. intros i Hi. simpl.
  rewrite Zplus_mod_idemp_l.
  replace (SPSC.head q + 1 + Z.of_nat i)
    with (SPSC.head q + Z.of_nat (S i)) by lia.
  symmetry. apply list_lookup_insert_ne. intros Heq.
  pose proof (slot_range q (Z.of_nat (S i)) Hq ltac:(lia)).
  apply Z2Nat.inj in Heq; [|lia..].
  rewrite <- (Z.mod_small (SPSC.head q) Size) in Heq at 1 by lia.
  rewrite <- (Z.add_0_r (SPSC.head q)) in Heq at 1.
  apply (slot_inj q) in Heq; [lia|done|lia..].
Qed.

(** Every state a fresh queue gets into keeps both indices in range. *)
Lemma reachable_wf q : SPSC.reachable Size moved_from q -> SPSC.wf Size q.
Proof.
  induction 1 as [slots Hl|q x ok q' _ IH He|q item ok item' q' _ IH Hd].
  - by apply wf_construct.
  - destruct (enqueue_spec q x IH) as [(_ & E)|(_ & q1 & E & Hq1 & _)];
      rewrite E in He; by simplify_eq.
  - destruct (dequeue_spec q item IH)
      as [(_ & E)|(_ & v & q1 & E & Hq1 & _)];
      rewrite E in Hd; by simplify_eq.
Qed.

Lemma spsc_run_reachable calls q item q' item' log :
  SPSC.reachable Size moved_from q ->
  run (SPSC.step Size moved_from) calls q item = Some (q', item', log) ->
  SPSC.reachable Size moved_from q'.
Proof.
  revert q item log.
  induction calls as [|c calls IH]; intros q item log Hq Hr; simpl in Hr.
  - by simplify_eq.
  - destruct (SPSC.step Size moved_from c q item) as [[[q1 item1] o]|] eqn:Hs;
      simpl in Hr; [|done].
    destruct (run _ calls q1 item1) as [[[q2 item2] log2]|] eqn:Hr2;
      simpl in Hr; [|done].
    simplify_eq. apply (IH q1 item1 log2); [|done].
    destruct c as [x|]; simpl in Hs.
    + destruct (SPSC.enqueue Size q x) as [[ok qa]|] eqn:He;
        simpl in Hs; [|done].
      simplify_eq. by eapply SPSC.reach_enqueue.
    + destruct (SPSC.dequeue Size moved_from q item) as [[[ok v] qa]|] eqn:Hd;
        simpl in Hs; [|done].
      simplify_eq. by eapply SPSC.reach_dequeue.
Qed.

Lemma spsc_fifo_step :
  fifo_step (SPSC.step Size moved_from) always (SPSC.wf Size)
            (SPSC.contents Size).
Proof.
  intros [x|] q item Hq _; simpl.
  - destruct (enqueue_spec q x Hq)
      as [(_ & ->)|(_ & q' & -> & Hq' & _ & Hc)]; simpl.
    + exists q, item, (Enqueued x false). by rewrite app_nil_r.
    + by exists q', item, (Enqueued x true).
  - destruct (dequeue_spec q item Hq)
      as [(_ & ->)|(_ & v & q' & -> & Hq' & _ & Hc)]; simpl.
    + exists q, item, (Dequeued false item). by rewrite app_nil_r.
    + exists q', v, (Dequeued true v). by rewrite app_nil_r, Hc.
Qed.

(** A run from a fresh queue returns and hands out what was put in. *)
Lemma spsc_run (slots : list T) calls item :
  length slots = Z.to_nat Size ->
  exists q item' log,
    run (SPSC.step Size moved_from) calls (SPSC.construct slots) item
      = Some (q, item', log) /\
    SPSC.wf Size q /\
    dequeued log ++ SPSC.contents Size q = enqueued log.
Proof.
  intros Hl.
  destruct (run_fifo _ _ _ _ spsc_fifo_step calls (SPSC.construct slots) item)
    as (q & item' & log & Hr & Hq & Hlog).
  - by apply wf_construct.
  - apply permitted_always.
  - rewrite contents_construct in Hlog. by exists q, item', log.
Qed.

(** As long as there is room, every [enqueue] of a row is accepted. *)
Lemma spsc_fill (xs : list T) q item :
  SPSC.wf Size q ->
  SPSC.count Size q + size_of xs <= Size - 1 ->
  exists q',
    run (SPSC.step Size moved_from) (Enqueue <$> xs) q item
      = Some (q', item, (fun x => Enqueued x true) <$> xs) /\
    SPSC.wf Size q' /\
    SPSC.count Size q' = SPSC.count Size q + size_of xs.
Proof.
  unfold size_of. revert q.
  induction xs as [|x xs IH]; intros q Hq Hroom.
  - exists q. simpl in *. split_and!; [done..|lia].
  - rewrite length_cons in Hroom |- *.
    destruct (enqueue_spec q x Hq) as [(?&_)|(_ & q1 & He & Hq1 & Hc1 & _)];
      [lia|].
    destruct (IH q1 Hq1 ltac:(lia)) as (q' & Hr & Hq' & Hc').
    exists q'. split_and!; [|done|lia].
    rewrite !fmap_cons. eapply run_cons; [|done]. simpl. by rewrite He.
Qed.
End SPSCFacts.

(** The bound on the indices is the number of slots [Size], not the
    value of [capacity()]: after three [enqueue]s on a ring of four
    slots, [tail] is 3. *)
Lemma tail_reaches_capacity :
  exists q : @SPSC.SPSCLockFreeQueue Z,
    SPSC.reachable 4 (fun _ => 0) q /\ SPSC.tail q = SPSC.capacity 4.
Proof.
  exists (SPSC.Build 0 3 [1; 2; 3; 0]). split; [|reflexivity].
  eapply (SPSC.reach_enqueue _ _ (SPSC.Build 0 2 [1; 2; 0; 0]) 3 true);
    [|reflexivity].
  eapply (SPSC.reach_enqueue _ _ (SPSC.Build 0 1 [1; 0; 0; 0]) 2 true);
    [|reflexivity].
  eapply (SPSC.reach_enqueue _ _ (SPSC.construct [0; 0; 0; 0]) 1 true);
    [|reflexivity].
  by apply SPSC.reach_construct.
Qed.

(** ** LockedQueue *)

Section LockedFacts.
Context {T : Type}.

Implicit Types q : @Locked.LockedQueue T.

Lemma locked_enqueue_spec q x :
  (Locked.max_size_ q <= size_of (Locked.queue_ q) /\
   Locked.enqueue q x = (false, q)) \/
  (size_of (Locked.queue_ q) < Locked.max_size_ q /\
   Locked.enqueue q x =
     (true, Locked.Build (Locked.queue_ q ++ [x]) (Locked.max_size_ q))).
Proof.
  unfold Locked.enqueue. rewrite Z.geb_leb.
  destruct (Z.leb_spec (Locked.max_size_ q) (size_of (Locked.queue_ q)));
    [by left | by right].
Qed.

Lemma locked_fifo_step :
  fifo_step (T:=T) Locked.step always (fun _ => True) Locked.contents.
Proof.
  intros [x|] q item _ _; simpl.
  - destruct (locked_enqueue_spec q x) as [(_ & ->)|(_ & ->)].
    + exists q, item, (Enqueued x false). by rewrite app_nil_r.
    + by eexists _, item, (Enqueued x true).
  - unfold Locked.dequeue, Locked.contents.
    destruct q as [[|v rest] M]; simpl.
    + by eexists _, item, (Dequeued false item).
    + eexists _, v, (Dequeued true v). by rewrite app_nil_r.
Qed.

Lemma locked_run M (calls : list (call T)) item :
  exists q item' log,
    run Locked.step calls (Locked.construct M) item = Some (q, item', log) /\
    dequeued log ++ Locked.contents q = enqueued log.
Proof.
  destruct (run_fifo _ _ _ _ locked_fifo_step calls (Locked.construct M) item)
    as (q & item' & log & Hr & _ & Hlog); [done | apply permitted_always |].
  by exists q, item', log.
Qed.

Lemma locked_fill (xs : list T) q item :
  size_of (Locked.queue_ q) + size_of xs <= Locked.max_size_ q ->
  run Locked.step (Enqueue <$> xs) q item
    = Some (Locked.Build (Locked.queue_ q ++ xs) (Locked.max_size_ q),
            item, (fun x => Enqueued x true) <$> xs).
Proof.
  unfold size_of. revert q.
  induction xs as [|x xs IH]; intros q Hroom.
  - simpl. rewrite app_nil_r. by destruct q.
  - rewrite length_cons in Hroom.
    destruct (locked_enqueue_spec q x) as [(?&_)|(_ & He)];
      [unfold size_of in *; lia|].
    rewrite !fmap_cons. eapply run_cons; [simpl; by rewrite He|].
    rewrite IH; simpl; [|rewrite length_app; simpl; lia].
    by rewrite <- (assoc_L (++)).
Qed.
End LockedFacts.

(** ** DoubleBufferSPSC *)

Section DoubleBufferFacts.
Context {T : Type}.
Variable moved_from : T -> T.

Implicit Types q : @DoubleBuffer.DoubleBufferSPSC T.

(** Case analysis on the two pointers of a well-formed queue. *)
Ltac roles q Hq :=
  destruct q as [b1 b2 [|] [|] f wi ri M];
  unfold DoubleBuffer.wf, DoubleBuffer.unread, DoubleBuffer.contents in *;
  simpl in *;
  destruct Hq as (Hne & Hri & Hb1 & Hb2 & HM); [done | | | done].

Lemma db_wf_construct M :
  is_size_t M -> DoubleBuffer.wf (T:=T) (DoubleBuffer.construct M).
Proof.
  intros [? ?]. unfold DoubleBuffer.wf, size_of. simpl.
  split_and!; [done|lia..].
Qed.

Lemma db_has_data q :
  DoubleBuffer.wf q ->
  DoubleBuffer.has_data q = false <-> DoubleBuffer.unread q = [].
Proof.
  intros Hq. unfold DoubleBuffer.has_data.
  roles q Hq; unfold size_of in *;
    (destruct (Z.ltb_spec ri (Z.of_nat (length b1)));
     destruct (Z.ltb_spec ri (Z.of_nat (length b2))));
    (split; intros Hd; try done; try (apply drop_ge; lia);
     apply drop_nil_inv in Hd; lia).
Qed.

Lemma db_enqueue_spec q x :
  DoubleBuffer.wf q ->
  (DoubleBuffer.enqueue q x = (false, q)) \/
  (exists q', DoubleBuffer.enqueue q x = (true, q') /\
     DoubleBuffer.wf q' /\
     DoubleBuffer.unread q' = DoubleBuffer.unread q /\
     DoubleBuffer.deref q' (DoubleBuffer.write_buffer_ q')
       = DoubleBuffer.deref q (DoubleBuffer.write_buffer_ q) ++ [x] /\
     DoubleBuffer.buffer_swapped_ q' = DoubleBuffer.buffer_swapped_ q).
Proof.
  intros Hq. unfold DoubleBuffer.enqueue. rewrite Z.geb_leb.
  destruct (Z.leb_spec (DoubleBuffer.max_size_ q)
              (size_of (DoubleBuffer.deref q (DoubleBuffer.write_buffer_ q))))
    as [Hfull|Hroom]; [by left|right].
  eexists. split; [done|].
  roles q Hq; unfold size_of in *; rewrite ?length_app; simpl;
    split_and!; try done; lia.
Qed.

Lemma db_swap_spec q :
  DoubleBuffer.wf q ->
  DoubleBuffer.wf (DoubleBuffer.swap_buffers q) /\
  DoubleBuffer.unread (DoubleBuffer.swap_buffers q)
    = DoubleBuffer.deref q (DoubleBuffer.write_buffer_ q) /\
  DoubleBuffer.deref (DoubleBuffer.swap_buffers q)
    (DoubleBuffer.write_buffer_ (DoubleBuffer.swap_buffers q)) = [].
Proof.
  intros Hq.
  roles q Hq; unfold size_of in *; simpl; split_and!; try done; lia.
Qed.

Lemma db_dequeue_spec q item :
  DoubleBuffer.wf q ->
  (DoubleBuffer.unread q = [] /\
   DoubleBuffer.dequeue moved_from q item = Some (false, item, q)) \/
  (exists v q',
     DoubleBuffer.dequeue moved_from q item = Some (true, v, q') /\
     DoubleBuffer.wf q' /\
     DoubleBuffer.unread q = v :: DoubleBuffer.unread q' /\
     DoubleBuffer.deref q' (DoubleBuffer.write_buffer_ q')
       = DoubleBuffer.deref q (DoubleBuffer.write_buffer_ q) /\
     DoubleBuffer.buffer_swapped_ q' = DoubleBuffer.buffer_swapped_ q).
Proof.
  intros Hq. pose proof (db_has_data q Hq) as Hd.
  unfold DoubleBuffer.dequeue, DoubleBuffer.has_data in *.
  set (buf := DoubleBuffer.deref q (DoubleBuffer.read_buffer_ q)) in *.
  set (i := DoubleBuffer.read_index_ q) in *.
  assert (Hi : 0 <= i <= size_of buf) by apply Hq.
  assert (Hbuf : size_of buf <= SIZE_MAX).
  { subst buf. destruct Hq as (_ & _ & ? & ? & ?).
    destruct (DoubleBuffer.read_buffer_ q); simpl; lia. }
  rewrite Z.geb_leb.
  destruct (Z.leb_spec (size_of buf) i) as [Hge|Hlt].
  { left. split; [|done]. apply Hd. by apply Z.ltb_ge. }
  right. unfold size_of in *.
  destruct (lookup_lt_is_Some_2 buf (Z.to_nat i)) as [v Hv]; [lia|].
  exists v. eexists.
  unfold array_get, array_set.
  destruct (Z.leb_spec 0 i); [|lia].
  destruct (Z.ltb_spec i (Z.of_nat (length buf))); [|lia].
  rewrite Hv. simpl. split; [done|].
  rewrite wrap_small by (unfold is_size_t; lia).
  subst buf i.
  roles q Hq; unfold size_of in *; rewrite ?length_insert;
    (split_and!; try done; try lia);
    replace (Z.to_nat (ri + 1)) with (S (Z.to_nat ri)) by lia;
    rewrite drop_insert_lt by lia; by apply drop_S.
Qed.

Lemma db_poll_spec q b :
  DoubleBuffer.wf q ->
  DoubleBuffer.wf (DoubleBuffer.store_buffer_swapped q b) /\
  DoubleBuffer.contents (DoubleBuffer.store_buffer_swapped q b)
    = DoubleBuffer.contents q.
Proof. intros Hq. by roles q Hq. Qed.

(** Under the producer's discipline the queue refines a list. *)
Lemma db_fifo_step :
  fifo_step (DoubleBuffer.step moved_from) DoubleBuffer.swap_when_drained
            DoubleBuffer.wf DoubleBuffer.contents.
Proof.
  intros [x| | |] q item Hq Hc; simpl.
  - destruct (db_enqueue_spec q x Hq)
      as [->|(q' & -> & Hq' & Hu & Hw & _)].
    + exists q, item, (Enqueued x false). by rewrite app_nil_r.
    + exists q', item, (Enqueued x true). split_and!; [done..|].
      unfold DoubleBuffer.contents. cbn [dequeued enqueued].
      by rewrite Hu, Hw, app_nil_l, (assoc_L (++)).
  - exists (DoubleBuffer.swap_buffers q), item, Swapped.
    destruct (db_swap_spec q Hq) as (Hq' & Hu & Hw).
    split_and!; [done..|]. simpl in Hc. apply negb_true_iff in Hc.
    apply (db_has_data q Hq) in Hc.
    unfold DoubleBuffer.contents. cbn [dequeued enqueued].
    by rewrite Hu, Hw, Hc, !app_nil_r.
  - destruct (db_dequeue_spec q item Hq)
      as [(_ & ->)|(v & q' & -> & Hq' & Hu & Hw & _)]; simpl.
    + exists q, item, (Dequeued false item). by rewrite app_nil_r.
    + exists q', v, (Dequeued true v). split_and!; [done..|].
      unfold DoubleBuffer.contents. cbn [dequeued enqueued].
      by rewrite Hu, Hw, app_nil_r.
  - destruct (db_poll_spec q false Hq) as (Hq' & Hcont).
    exists (DoubleBuffer.store_buffer_swapped q false), item,
      (WasSwapped (DoubleBuffer.buffer_swapped_ q)).
    split_and!; [done..|].
    cbn [dequeued enqueued]. by rewrite Hcont, app_nil_r.
Qed.

(** Without the discipline a swap loses the unread rest of the read
    buffer, and nothing else goes wrong. *)
Lemma db_lossy_step :
  lossy_step (DoubleBuffer.step moved_from)
             DoubleBuffer.wf DoubleBuffer.contents.
Proof.
  intros c q item Hq.
  destruct (decide (DoubleBuffer.swap_when_drained c q = true)) as [Hc|Hc].
  { destruct (db_fifo_step c q item Hq Hc) as (q' & item' & o & ? & ? & Ho).
    exists q', item', o. by rewrite Ho. }
  destruct c as [x| | |]; try done.
  exists (DoubleBuffer.swap_buffers q), item, Swapped.
  destruct (db_swap_spec q Hq) as (Hq' & Hu & Hw).
  split_and!; [done..|].
  unfold DoubleBuffer.contents. cbn [dequeued enqueued].
  rewrite Hu, Hw, !app_nil_r. by apply sublist_inserts_l.
Qed.

Lemma db_reachable_wf q :
  DoubleBuffer.reachable moved_from q -> DoubleBuffer.wf q.
Proof.
  induction 1 as [M HM|q x _ IH|q _ IH|q item ok item' q' _ IH Hd|q _ IH].
  - by apply db_wf_construct.
  - by destruct (db_enqueue_spec q x IH) as [->|(q' & -> & Hq' & _)].
  - by apply db_swap_spec.
  - destruct (db_dequeue_spec q item IH)
      as [(_ & E)|(v & q1 & E & Hq1 & _)];
      rewrite E in Hd; by simplify_eq.
  - by apply (db_poll_spec q false).
Qed.

Lemma db_run_reachable calls q item q' item' log :
  DoubleBuffer.reachable moved_from q ->
  run (DoubleBuffer.step moved_from) calls q item = Some (q', item', log) ->
  DoubleBuffer.reachable moved_from q'.
Proof.
  revert q item log.
  induction calls as [|c calls IH]; intros q item log Hq Hr; simpl in Hr.
  - by simplify_eq.
  - destruct (DoubleBuffer.step moved_from c q item)
      as [[[q1 item1] o]|] eqn:Hs; simpl in Hr; [|done].
    destruct (run _ calls q1 item1) as [[[q2 item2] log2]|] eqn:Hr2;
      simpl in Hr; [|done].
    simplify_eq. apply (IH q1 item1 log2); [|done].
    destruct c as [x| | |]; simpl in Hs.
    + destruct (DoubleBuffer.enqueue q x) as [ok qa] eqn:He.
      simplify_eq. by apply (DoubleBuffer.reach_enqueue _ q x) in Hq;
        rewrite He in Hq.
    + simplify_eq. by apply DoubleBuffer.reach_swap_buffers.
    + destruct (DoubleBuffer.dequeue moved_from q item)
        as [[[ok v] qa]|] eqn:Hd; simpl in Hs; [|done].
      simplify_eq. by eapply DoubleBuffer.reach_dequeue.
    + simplify_eq. by apply (DoubleBuffer.reach_buffer_was_swapped _ q).
Qed.

Lemma db_contents_construct M :
  DoubleBuffer.contents (T:=T) (DoubleBuffer.construct M) = [].
Proof. done. Qed.

(** [enqueue] and [dequeue] leave the flag alone. *)
Lemma db_flag_kept (b : bool) :
  safe_step (DoubleBuffer.step moved_from) DoubleBuffer.enqueue_dequeue_only
    (fun q => DoubleBuffer.wf q /\ DoubleBuffer.buffer_swapped_ q = b)
    (fun _ => True).
Proof.
  intros [x| | |] q item [Hq Hf] Hc; try done; simpl.
  - destruct (db_enqueue_spec q x Hq)
      as [->|(q' & -> & Hq' & _ & _ & Hf')].
    + by exists q, item, (Enqueued x false).
    + exists q', item, (Enqueued x true). by rewrite Hf'.
  - destruct (db_dequeue_spec q item Hq)
      as [(_ & ->)|(v & q' & -> & Hq' & _ & _ & Hf')]; simpl.
    + by exists q, item, (Dequeued false item).
    + exists q', v, (Dequeued true v). by rewrite Hf'.
Qed.

(** Once the flag is down, only [swap_buffers] raises it. *)
Lemma db_flag_down :
  safe_step (DoubleBuffer.step moved_from) DoubleBuffer.no_swap
    (fun q => DoubleBuffer.wf q /\ DoubleBuffer.buffer_swapped_ q = false)
    (fun o => o <> WasSwapped true).
Proof.
  intros [x| | |] q item [Hq Hf] Hc; try done; simpl.
  - destruct (db_enqueue_spec q x Hq)
      as [->|(q' & -> & Hq' & _ & _ & Hf')].
    + by exists q, item, (Enqueued x false).
    + exists q', item, (Enqueued x true). by rewrite Hf'.
  - destruct (db_dequeue_spec q item Hq)
      as [(_ & ->)|(v & q' & -> & Hq' & _ & _ & Hf')]; simpl.
    + by exists q, item, (Dequeued false item).
    + exists q', v, (Dequeued true v). by rewrite Hf'.
  - destruct (db_poll_spec q false Hq) as (Hq' & _).
    exists (DoubleBuffer.store_buffer_swapped q false), item,
      (WasSwapped (DoubleBuffer.buffer_swapped_ q)).
    split_and!; [done..|]. by rewrite Hf.
Qed.

Lemma db_step_enqueue q x item :
  size_of (DoubleBuffer.deref q (DoubleBuffer.write_buffer_ q))
    < DoubleBuffer.max_size_ q ->
  DoubleBuffer.step moved_from (DoubleBuffer.CEnqueue x) q item
  = Some (DoubleBuffer.assign q (DoubleBuffer.write_buffer_ q)
            (DoubleBuffer.deref q (DoubleBuffer.write_buffer_ q) ++ [x]),
          item, Enqueued x true).
Proof.
  intros Hroom. simpl. unfold DoubleBuffer.enqueue. rewrite Z.geb_leb.
  by destruct (Z.leb_spec (DoubleBuffer.max_size_ q)
                 (size_of (DoubleBuffer.deref q
                             (DoubleBuffer.write_buffer_ q)))); [lia|].
Qed.

(** As long as the write buffer has room, every [enqueue] of a row is
    accepted and lands at its end. *)
Lemma db_fill (xs : list T) q item :
  size_of (DoubleBuffer.deref q (DoubleBuffer.write_buffer_ q)) + size_of xs
    <= DoubleBuffer.max_size_ q ->
  run (DoubleBuffer.step moved_from) (DoubleBuffer.CEnqueue <$> xs) q item
  = Some (DoubleBuffer.assign q (DoubleBuffer.write_buffer_ q)
            (DoubleBuffer.deref q (DoubleBuffer.write_buffer_ q) ++ xs),
          item, (fun x => Enqueued x true) <$> xs).
Proof.
  unfold size_of. revert q.
  induction xs as [|x xs IH]; intros q Hroom.
  - simpl. rewrite app_nil_r. by destruct q as [b1 b2 [|] r f wi ri M].
  - rewrite length_cons in Hroom. rewrite !fmap_cons.
    eapply run_cons.
    + apply db_step_enqueue. unfold size_of. lia.
    + rewrite IH.
      * destruct q as [b1 b2 [|] r f wi ri M]; simpl;
          by rewrite <- (assoc_L (++)).
      * destruct q as [b1 b2 [|] r f wi ri M]; simpl in *;
          rewrite length_app; simpl; lia.
Qed.

(** A row of [dequeue]s hands out the unread part of the read buffer,
    as far as it goes. *)
Lemma db_drain n q item :
  DoubleBuffer.wf q ->
  exists q' item' log,
    run (DoubleBuffer.step moved_from)
        (replicate n DoubleBuffer.CDequeue) q item = Some (q', item', log) /\
    dequeued log = take n (DoubleBuffer.unread q).
Proof.
  revert q item. induction n as [|n IH]; intros q item Hq.
  - by exists q, item, [].
  - destruct (db_dequeue_spec q item Hq)
      as [(Hu & Hd)|(v & q1 & Hd & Hq1 & Hu & _)].
    + destruct (IH q item Hq) as (q' & item' & log & Hr & Hl).
      exists q', item', (Dequeued false item :: log). split.
      * eapply run_cons; [|done]. simpl. by rewrite Hd.
      * simpl. rewrite Hl, Hu. by rewrite !take_nil.
    + destruct (IH q1 v Hq1) as (q' & item' & log & Hr & Hl).
      exists q', item', (Dequeued true v :: log). split.
      * eapply run_cons; [|done]. simpl. by rewrite Hd.
      * simpl. by rewrite Hl, Hu.
Qed.
End DoubleBufferFacts.

Lemma swapped_flags_down {T : Type} (log : list (outcome T)) :
  Forall (fun o => o <> WasSwapped true) log ->
  Forall (fun flag => flag = false) (DoubleBuffer.swapped_flags log).
Proof.
  induction 1 as [|o log Ho _ IH]; [constructor|].
  destruct o as [x ok|ok v| |[|]]; simpl; try done. by constructor.
Qed.

(** ** Draining a queue *)

Lemma dequeued_delivered {T} (l : list T) :
  dequeued ((fun v => Dequeued true v) <$> l) = l.
Proof.
  induction l as [|v l IH]; [done|].
  rewrite fmap_cons. cbn [dequeued]. by rewrite IH.
Qed.

Lemma enqueued_delivered {T} (l : list T) :
  enqueued ((fun v => Dequeued true v) <$> l) = [].
Proof. induction l as [|v l IH]; [done|]. by rewrite fmap_cons. Qed.

Section DrainFacts.
Context {T Q C : Type}.
Variable step : C -> Q -> T -> option (Q * T * outcome T).
Variable allowed : C -> Q -> bool.
Variable inv : Q -> Prop.
Variable contents : Q -> list T.
Variable deq : C.

Lemma permitted_app calls1 calls2 q item q1 item1 log1 :
  run step calls1 q item = Some (q1, item1, log1) ->
  permitted step allowed (calls1 ++ calls2) q item
  = permitted step allowed calls1 q item
    && permitted step allowed calls2 q1 item1.
Proof.
  revert q item log1.
  induction calls1 as [|c calls1 IH]; intros q item log1 Hr; simpl in *.
  - by simplify_eq.
  - destruct (step c q item) as [[[qa ia] o]|]; simpl in *; [|done].
    destruct (run step calls1 qa ia) as [[[qb ib] lb]|] eqn:E; simpl in *;
      [|done].
    simplify_eq. rewrite (IH _ _ _ E). by rewrite andb_assoc.
Qed.

(** When every [dequeue] on a queue that stores something hands out
    the oldest element and removes it, as many [dequeue]s as there are
    elements hand them all out, in order. *)
Hypothesis deliver :
  forall q item v rest, inv q -> contents q = v :: rest ->
    exists q', step deq q item = Some (q', v, Dequeued true v) /\ inv q' /\
      contents q' = rest.
Hypothesis deq_allowed : forall q, allowed deq q = true.

Lemma run_drain l q item :
  inv q -> contents q = l ->
  exists q' item',
    run step (replicate (length l) deq) q item
      = Some (q', item', (fun v => Dequeued true v) <$> l) /\
    permitted step allowed (replicate (length l) deq) q item = true /\
    inv q' /\ contents q' = [].
Proof.
  revert q item. induction l as [|v l IH]; intros q item Hq Hl.
  - by exists q, item.
  - destruct (deliver q item v l Hq Hl) as (q1 & Hs & Hq1 & Hl1).
    destruct (IH q1 v Hq1 Hl1) as (q' & item' & Hr & Hp & Hq' & Hnil).
    exists q', item'. split; [|split; [|done]].
    + rewrite fmap_cons. by eapply run_cons.
    + simpl. by rewrite deq_allowed, Hs.
Qed.
End DrainFacts.

Section SPSCDrain.
Context {T : Type}.
Variable Size : Z.
Variable moved_from : T -> T.
Hypothesis HSize : SPSC.static_assert Size.

Lemma spsc_deliver (q : @SPSC.SPSCLockFreeQueue T) item v rest :
  SPSC.wf Size q -> SPSC.contents Size q = v :: rest ->
  exists q',
    SPSC.step Size moved_from Dequeue q item = Some (q', v, Dequeued true v) /\
    SPSC.wf Size q' /\ SPSC.contents Size q' = rest.
Proof.
  intros Hq Hl.
  destruct (dequeue_spec Size moved_from HSize q item Hq)
    as [(Hc & _)|(_ & v' & q' & Hd & Hq' & _ & Hcont)].
  - pose proof (length_contents Size HSize q Hq) as Hlen.
    rewrite Hc, Hl in Hlen. done.
  - rewrite Hl in Hcont. injection Hcont as <- ->.
    exists q'. simpl. by rewrite Hd.
Qed.

Lemma spsc_size_contents (q : @SPSC.SPSCLockFreeQueue T) :
  SPSC.wf Size q ->
  Z.to_nat (SPSC.size Size q) = length (SPSC.contents Size q).
Proof.
  intros Hq. by rewrite (size_count Size HSize),
    (length_contents Size HSize q Hq).
Qed.

Lemma spsc_contents_nil_empty (q : @SPSC.SPSCLockFreeQueue T) :
  SPSC.wf Size q -> SPSC.contents Size q = [] -> SPSC.empty q = true.
Proof.
  intros Hq Hnil. unfold SPSC.empty. apply Z.eqb_eq.
  apply (count_empty Size HSize q Hq).
  pose proof (length_contents Size HSize q Hq) as Hl.
  pose proof (count_range Size HSize q Hq).
  rewrite Hnil in Hl. simpl in Hl. lia.
Qed.
End SPSCDrain.

Section DoubleBufferDrain.
Context {T : Type}.
Variable moved_from : T -> T.

Implicit Types q : @DoubleBuffer.DoubleBufferSPSC T.

Lemma db_deliver (W : list T) q item v rest :
  DoubleBuffer.wf q /\
    DoubleBuffer.deref q (DoubleBuffer.write_buffer_ q) = W ->
  DoubleBuffer.unread q = v :: rest ->
  exists q',
    DoubleBuffer.step moved_from DoubleBuffer.CDequeue q item
      = Some (q', v, Dequeued true v) /\
    (DoubleBuffer.wf q' /\
       DoubleBuffer.deref q' (DoubleBuffer.write_buffer_ q') = W) /\
    DoubleBuffer.unread q' = rest.
Proof.
  intros [Hq HW] Hl.
  destruct (db_dequeue_spec moved_from q item Hq)
    as [(Hu & _)|(v' & q' & Hd & Hq' & Hu & Hw & _)]; [congruence|].
  rewrite Hl in Hu. injection Hu as <- ->.
  exists q'. simpl. rewrite Hd. split_and!; [done..|congruence|done].
Qed.

Lemma db_remaining_unread q :
  DoubleBuffer.wf q ->
  Z.to_nat (DoubleBuffer.read_buffer_remaining q)
  = length (DoubleBuffer.unread q).
Proof.
  intros (Hne & Hri & Hb1 & Hb2 & HM).
  unfold DoubleBuffer.read_buffer_remaining, DoubleBuffer.unread.
  rewrite length_drop, wrap_small; [unfold size_of; lia|].
  unfold is_size_t, size_of in *.
  destruct q as [b1 b2 [|] [|] f wi ri M]; simpl in *; lia.
Qed.

(** The consumer drains the read buffer, the producer swaps, the
    consumer drains again: everything stored comes out, in order, and
    the swap is made on a drained read buffer. *)
Lemma db_drain_all q item :
  DoubleBuffer.wf q ->
  exists q' item' log,
    run (DoubleBuffer.step moved_from)
        (replicate (Z.to_nat (DoubleBuffer.read_buffer_remaining q))
                   DoubleBuffer.CDequeue
         ++ [DoubleBuffer.CSwapBuffers]
         ++ replicate (Z.to_nat (DoubleBuffer.write_buffer_size q))
                      DoubleBuffer.CDequeue) q item
      = Some (q', item', log) /\
    permitted (DoubleBuffer.step moved_from) DoubleBuffer.swap_when_drained
        (replicate (Z.to_nat (DoubleBuffer.read_buffer_remaining q))
                   DoubleBuffer.CDequeue
         ++ [DoubleBuffer.CSwapBuffers]
         ++ replicate (Z.to_nat (DoubleBuffer.write_buffer_size q))
                      DoubleBuffer.CDequeue) q item = true /\
    dequeued log = DoubleBuffer.contents q /\ enqueued log = [] /\
    DoubleBuffer.has_data q' = false /\
    DoubleBuffer.write_buffer_size q' = 0.
Proof.
  intros Hq. rewrite (db_remaining_unread q Hq).
  unfold DoubleBuffer.write_buffer_size, size_of. rewrite Nat2Z.id.
  set (W := DoubleBuffer.deref q (DoubleBuffer.write_buffer_ q)).
  destruct (run_drain (DoubleBuffer.step moved_from)
              DoubleBuffer.swap_when_drained _ DoubleBuffer.unread
              DoubleBuffer.CDequeue (db_deliver W) (fun _ => eq_refl)
              (DoubleBuffer.unread q) q item (conj Hq eq_refl) eq_refl)
    as (q1 & item1 & Hr1 & Hp1 & [Hq1 HW1] & Hnil1).
  destruct (db_swap_spec q1 Hq1) as (Hq2 & Hu2 & Hw2).
  rewrite HW1 in Hu2.
  destruct (run_drain (DoubleBuffer.step moved_from)
              DoubleBuffer.swap_when_drained _ DoubleBuffer.unread
              DoubleBuffer.CDequeue (db_deliver []) (fun _ => eq_refl)
              W (DoubleBuffer.swap_buffers q1) item1 (conj Hq2 Hw2) Hu2)
    as (q3 & item3 & Hr3 & Hp3 & [Hq3 HW3] & Hnil3).
  assert (Hr2 : run (DoubleBuffer.step moved_from)
                  ([DoubleBuffer.CSwapBuffers]
                   ++ replicate (length W) DoubleBuffer.CDequeue) q1 item1
                = Some (q3, item3,
                        Swapped :: ((fun v => Dequeued true v) <$> W))).
  { eapply run_cons; [reflexivity | exact Hr3]. }
  exists q3, item3,
    (((fun v => Dequeued true v) <$> DoubleBuffer.unread q)
     ++ Swapped :: ((fun v => Dequeued true v) <$> W)).
  split; [by eapply run_app|].
  split; [|split_and!].
  - rewrite (permitted_app _ _ _ _ _ _ _ _ _ Hr1), Hp1. simpl.
    apply (db_has_data q1 Hq1) in Hnil1. by rewrite Hnil1, Hp3.
  - rewrite dequeued_app. cbn [dequeued].
    by rewrite !dequeued_delivered.
  - rewrite enqueued_app. cbn [enqueued].
    by rewrite !enqueued_delivered.
  - by apply (db_has_data q3 Hq3).
  - by rewrite HW3.
Qed.
End DoubleBufferDrain.

(** ** The properties of the specification *)

(** C1.  On each of the three queues, a run of [enqueue]s and
    [dequeue]s from a fresh queue returns, and the values handed out by
    the successful [dequeue]s, followed by the values still stored, are
    the values taken by the successful [enqueue]s, in the same order:
    nothing is lost, repeated or reordered.  What is still stored does
    come out: as many further [dequeue]s as [size()] tells all succeed,
    and with them the sequence of the values dequeued is equal to the
    sequence of the values enqueued, and the queue is empty.  For
    [DoubleBufferSPSC] the run may call [swap_buffers] whenever the
    read buffer is drained, and [buffer_was_swapped] at any time; what
    is still stored comes out by [read_buffer_remaining()] [dequeue]s,
    one [swap_buffers], made on the drained read buffer, and
    [write_buffer_size()] [dequeue]s. *)
Theorem fifo_order {T : Type} (Size M1 M2 : Z) (moved_from : T -> T)
    (slots : list T) (calls1 calls2 : list (call T))
    (calls3 : list (DoubleBuffer.call T)) (item : T) :
  SPSC.static_assert Size ->
  length slots = Z.to_nat Size ->
  is_size_t M2 ->
  permitted (DoubleBuffer.step moved_from) DoubleBuffer.swap_when_drained
            calls3 (DoubleBuffer.construct M2) item = true ->
  (exists q item' log,
     run (SPSC.step Size moved_from) calls1 (SPSC.construct slots) item
       = Some (q, item', log) /\
     dequeued log ++ SPSC.contents Size q = enqueued log /\
     (SPSC.empty q = true -> dequeued log = enqueued log) /\
     exists q' item'' log',
       run (SPSC.step Size moved_from)
           (replicate (Z.to_nat (SPSC.size Size q)) Dequeue) q item'
         = Some (q', item'', log') /\
       dequeued (log ++ log') = enqueued (log ++ log') /\
       SPSC.empty q' = true) /\
  (exists q item' log,
     run Locked.step calls2 (Locked.construct M1) item
       = Some (q, item', log) /\
     dequeued log ++ Locked.contents q = enqueued log /\
     (Locked.empty q = true -> dequeued log = enqueued log) /\
     exists q' item'' log',
       run Locked.step (replicate (Z.to_nat (Locked.size q)) Dequeue) q item'
         = Some (q', item'', log') /\
       dequeued (log ++ log') = enqueued (log ++ log') /\
       Locked.empty q' = true) /\
  (exists q item' log,
     run (DoubleBuffer.step moved_from) calls3 (DoubleBuffer.construct M2) item
       = Some (q, item', log) /\
     dequeued log ++ DoubleBuffer.contents q = enqueued log /\
     (DoubleBuffer.has_data q = false ->
      DoubleBuffer.write_buffer_size q = 0 ->
      dequeued log = enqueued log) /\
     let rest :=
       replicate (Z.to_nat (DoubleBuffer.read_buffer_remaining q))
                 DoubleBuffer.CDequeue
       ++ [DoubleBuffer.CSwapBuffers]
       ++ replicate (Z.to_nat (DoubleBuffer.write_buffer_size q))
                    DoubleBuffer.CDequeue in
     exists q' item'' log',
       run (DoubleBuffer.step moved_from) rest q item'
         = Some (q', item'', log') /\
       permitted (DoubleBuffer.step moved_from)
                 DoubleBuffer.swap_when_drained rest q item' = true /\
       dequeued (log ++ log') = enqueued (log ++ log') /\
       DoubleBuffer.has_data q' = false /\
       DoubleBuffer.write_buffer_size q' = 0).
Proof.
  intros HSize Hslots HM2 Hdrained. split_and!.
  - destruct (spsc_run Size moved_from HSize slots calls1 item Hslots)
      as (q & item' & log & Hr & Hq & Hlog).
    exists q, item', log. split_and!; [done..| |].
    + unfold SPSC.empty. intros He%Z.eqb_eq.
      apply (count_empty Size HSize q Hq) in He.
      pose proof (length_contents Size HSize q Hq) as Hl.
      rewrite He in Hl. apply nil_length_inv in Hl.
      by rewrite Hl, app_nil_r in Hlog.
    + rewrite (spsc_size_contents Size HSize q Hq).
      destruct (run_drain (SPSC.step Size moved_from) always
                  (SPSC.wf Size) (SPSC.contents Size) Dequeue
                  (spsc_deliver Size moved_from HSize) (fun _ => eq_refl)
                  (SPSC.contents Size q) q item' Hq eq_refl)
        as (q' & item'' & Hr' & _ & Hq' & Hnil).
      exists q', item'', ((fun v => Dequeued true v) <$> SPSC.contents Size q).
      split; [done|]. split.
      * by rewrite dequeued_app, enqueued_app, dequeued_delivered,
          enqueued_delivered, app_nil_r.
      * by apply (spsc_contents_nil_empty Size HSize).
  - destruct (locked_run M1 calls2 item) as (q & item' & log & Hr & Hlog).
    exists q, item', log. split_and!; [done..| |].
    + unfold Locked.empty, Locked.contents in *.
      destruct (Locked.queue_ q); [|done]. by rewrite app_nil_r in Hlog.
    + unfold Locked.size, size_of. rewrite Nat2Z.id.
      destruct (run_drain (T:=T) Locked.step always (fun _ => True)
                  Locked.contents Dequeue)
        with (l := Locked.contents q) (q := q) (item := item')
        as (q' & item'' & Hr' & _ & _ & Hnil); [| done..|].
      { intros [l M] d v rest _ Hl. unfold Locked.contents in Hl.
        simpl in Hl. subst l. by eexists. }
      exists q', item'', ((fun v => Dequeued true v) <$> Locked.contents q).
      split; [done|]. split.
      * by rewrite dequeued_app, enqueued_app, dequeued_delivered,
          enqueued_delivered, app_nil_r.
      * unfold Locked.empty, Locked.contents in *. by rewrite Hnil.
  - destruct (run_fifo _ _ _ _ (db_fifo_step moved_from) calls3
                (DoubleBuffer.construct M2) item (db_wf_construct M2 HM2)
                Hdrained)
      as (q & item' & log & Hr & Hq & Hlog).
    rewrite db_contents_construct in Hlog. simpl in Hlog.
    exists q, item', log. split_and!; [done..| |].
    + intros Hd%(db_has_data q Hq) Hw.
      unfold DoubleBuffer.write_buffer_size, size_of in Hw.
      assert (Hw' : DoubleBuffer.deref q (DoubleBuffer.write_buffer_ q) = [])
        by (apply nil_length_inv; lia).
      unfold DoubleBuffer.contents in Hlog.
      by rewrite Hd, Hw', !app_nil_r in Hlog.
    + intros rest.
      destruct (db_drain_all moved_from q item' Hq)
        as (q' & item'' & log' & Hr' & Hp' & Hdeq & Henq & Hd' & Hw').
      exists q', item'', log'. split_and!; [done..| |done|done].
      by rewrite dequeued_app, enqueued_app, Hdeq, Henq, app_nil_r.
Qed.

Lemma fifo_order_witness :
  SPSC.static_assert 4 /\ is_size_t 2 /\
  permitted (DoubleBuffer.step (fun _ : Z => 0)) DoubleBuffer.swap_when_drained
            Samples.double_calls (DoubleBuffer.construct 2) 0 = true /\
  (exists q item' log,
     run (SPSC.step 4 (fun _ : Z => 0)) Samples.ring_calls
         (SPSC.construct [0; 0; 0; 0]) 0 = Some (q, item', log) /\
     dequeued log ++ SPSC.contents 4 q = enqueued log /\
     (SPSC.empty q = true -> dequeued log = enqueued log) /\
     exists q' item'' log',
       run (SPSC.step 4 (fun _ : Z => 0))
           (replicate (Z.to_nat (SPSC.size 4 q)) Dequeue) q item'
         = Some (q', item'', log') /\
       dequeued (log ++ log') = enqueued (log ++ log') /\
       SPSC.empty q' = true) /\
  (exists q item' log,
     run Locked.step Samples.locked_calls (Locked.construct 2) 0
       = Some (q, item', log) /\
     dequeued log ++ Locked.contents q = enqueued log /\
     (Locked.empty q = true -> dequeued log = enqueued log) /\
     exists q' item'' log',
       run Locked.step (replicate (Z.to_nat (Locked.size q)) Dequeue) q item'
         = Some (q', item'', log') /\
       dequeued (log ++ log') = enqueued (log ++ log') /\
       Locked.empty q' = true) /\
  (exists q item' log,
     run (DoubleBuffer.step (fun _ : Z => 0)) Samples.double_calls
         (DoubleBuffer.construct 2) 0 = Some (q, item', log) /\
     dequeued log ++ DoubleBuffer.contents q = enqueued log /\
     (DoubleBuffer.has_data q = false ->
      DoubleBuffer.write_buffer_size q = 0 ->
      dequeued log = enqueued log) /\
     let rest :=
       replicate (Z.to_nat (DoubleBuffer.read_buffer_remaining q))
                 DoubleBuffer.CDequeue
       ++ [DoubleBuffer.CSwapBuffers]
       ++ replicate (Z.to_nat (DoubleBuffer.write_buffer_size q))
                    DoubleBuffer.CDequeue in
     exists q' item'' log',
       run (DoubleBuffer.step (fun _ : Z => 0)) rest q item'
         = Some (q', item'', log') /\
       permitted (DoubleBuffer.step (fun _ : Z => 0))
                 DoubleBuffer.swap_when_drained rest q item' = true /\
       dequeued (log ++ log') = enqueued (log ++ log') /\
       DoubleBuffer.has_data q' = false /\
       DoubleBuffer.write_buffer_size q' = 0).
Proof.
  assert (HSize : SPSC.static_assert 4).
  { split; [split; [reflexivity | discriminate] | reflexivity]. }
  assert (HM : is_size_t 2) by (split; discriminate).
  split; [exact HSize|]. split; [exact HM|]. split; [reflexivity|].
  exact (fifo_order 4 2 2 (fun _ : Z => 0) [0; 0; 0; 0]
           Samples.ring_calls Samples.locked_calls Samples.double_calls
           0 HSize eq_refl HM eq_refl).
Defined.

(** C2.  From a fresh queue and without any [dequeue]: on an
    [SPSCLockFreeQueue] of size [Size] the first [Size - 1] calls of
    [enqueue] return true and the next one returns false; on a
    [LockedQueue] built with [max_size = M] the first [M] calls return
    true and the next one returns false. *)
Theorem capacity_bound {T : Type} (Size M : Z) (moved_from : T -> T)
    (slots xs1 xs2 : list T) (x item : T) :
  SPSC.static_assert Size ->
  length slots = Z.to_nat Size ->
  length xs1 = Z.to_nat (Size - 1) ->
  is_size_t M ->
  length xs2 = Z.to_nat M ->
  (exists q item' log,
     run (SPSC.step Size moved_from) (Enqueue <$> xs1 ++ [x])
         (SPSC.construct slots) item = Some (q, item', log) /\
     enqueue_flags log = replicate (Z.to_nat (Size - 1)) true ++ [false]) /\
  (exists q item' log,
     run Locked.step (Enqueue <$> xs2 ++ [x]) (Locked.construct M) item
       = Some (q, item', log) /\
     enqueue_flags log = replicate (Z.to_nat M) true ++ [false]).
Proof.
  intros HSize Hslots Hxs1 [HM0 HM] Hxs2.
  pose proof (Size_pos Size HSize) as HS. split.
  - pose proof (wf_construct Size HSize slots Hslots) as Hq0.
    assert (Hc0 : SPSC.count Size (SPSC.construct slots) = 0).
    { unfold SPSC.count. simpl. apply Zmod_0_l. }
    destruct (spsc_fill Size moved_from HSize xs1 _ item Hq0)
      as (q1 & Hr1 & Hq1 & Hc1); [unfold size_of; lia|].
    destruct (enqueue_spec Size HSize q1 x Hq1) as [(_ & He)|(? & _)];
      [|unfold size_of in *; lia].
    exists q1, item, (((fun x => Enqueued x true) <$> xs1)
                        ++ [Enqueued x false]).
    split.
    + rewrite fmap_app. eapply run_app; [done|]. simpl. by rewrite He.
    + by rewrite enqueue_flags_app, enqueue_flags_accepted, Hxs1.
  - pose proof (locked_fill xs2 (Locked.construct M) item) as Hr1.
    simpl in Hr1. specialize (Hr1 ltac:(unfold size_of; simpl; lia)).
    eexists _, item, (((fun x => Enqueued x true) <$> xs2)
                        ++ [Enqueued x false]).
    split.
    + rewrite fmap_app. eapply run_app; [done|]. simpl.
      unfold Locked.enqueue. simpl. rewrite Z.geb_leb.
      destruct (Z.leb_spec M (size_of xs2)); [done|].
      unfold size_of in *. lia.
    + by rewrite enqueue_flags_app, enqueue_flags_accepted, Hxs2.
Qed.

Lemma capacity_bound_witness :
  SPSC.static_assert 4 /\ is_size_t 2 /\
  (exists q item' log,
     run (SPSC.step 4 (fun _ : Z => 0)) (Enqueue <$> [1; 2; 3] ++ [4])
         (SPSC.construct [0; 0; 0; 0]) 0 = Some (q, item', log) /\
     enqueue_flags log = [true; true; true; false]) /\
  (exists q item' log,
     run Locked.step (Enqueue <$> [5; 6] ++ [4]) (Locked.construct 2) 0
       = Some (q, item', log) /\
     enqueue_flags log = [true; true; false]).
Proof.
  assert (HSize : SPSC.static_assert 4).
  { split; [split; [reflexivity | discriminate] | reflexivity]. }
  assert (HM : is_size_t 2) by (split; discriminate).
  split; [exact HSize|]. split; [exact HM|].
  apply (capacity_bound 4 2 (fun _ : Z => 0) [0; 0; 0; 0] [1; 2; 3] [5; 6] 4 0
           HSize eq_refl eq_refl HM eq_refl).
Defined.

(** C3.  On a fresh [DoubleBufferSPSC] with room for three elements,
    three [enqueue]s followed by one [swap_buffers] make the next three
    [dequeue]s return true with the three elements in the order of
    their [enqueue], and the fourth return false. *)
Theorem double_buffer_batch {T : Type} (moved_from : T -> T) (M : Z)
    (a b c item : T) :
  3 <= M ->
  run (DoubleBuffer.step moved_from)
      [DoubleBuffer.CEnqueue a; DoubleBuffer.CEnqueue b;
       DoubleBuffer.CEnqueue c; DoubleBuffer.CSwapBuffers;
       DoubleBuffer.CDequeue; DoubleBuffer.CDequeue;
       DoubleBuffer.CDequeue; DoubleBuffer.CDequeue]
      (DoubleBuffer.construct M) item
  = Some (DoubleBuffer.Build [moved_from a; moved_from b; moved_from c] []
            DoubleBuffer.Buffer2 DoubleBuffer.Buffer1 true 0 3 M,
          c,
          [Enqueued a true; Enqueued b true; Enqueued c true; Swapped;
           Dequeued true a; Dequeued true b; Dequeued true c;
           Dequeued false c]).
Proof.
  intros HM.
  pose proof (db_fill moved_from [a; b; c] (DoubleBuffer.construct M) item)
    as Hfill.
  apply (run_app _ (DoubleBuffer.CEnqueue <$> [a; b; c])
           [DoubleBuffer.CSwapBuffers; DoubleBuffer.CDequeue;
            DoubleBuffer.CDequeue; DoubleBuffer.CDequeue;
            DoubleBuffer.CDequeue]
           _ _ _ _ _ _ _
           [Swapped; Dequeued true a; Dequeued true b; Dequeued true c;
            Dequeued false c]
           (Hfill ltac:(unfold size_of; simpl; lia))).
  vm_compute. reflexivity.
Qed.

Lemma double_buffer_batch_witness :
  3 <= 16 /\
  run (DoubleBuffer.step (fun _ : Z => 0))
      [DoubleBuffer.CEnqueue 10; DoubleBuffer.CEnqueue 20;
       DoubleBuffer.CEnqueue 30; DoubleBuffer.CSwapBuffers;
       DoubleBuffer.CDequeue; DoubleBuffer.CDequeue;
       DoubleBuffer.CDequeue; DoubleBuffer.CDequeue]
      (DoubleBuffer.construct 16) 7
  = Some (DoubleBuffer.Build [0; 0; 0] []
            DoubleBuffer.Buffer2 DoubleBuffer.Buffer1 true 0 3 16,
          30,
          [Enqueued 10 true; Enqueued 20 true; Enqueued 30 true; Swapped;
           Dequeued true 10; Dequeued true 20; Dequeued true 30;
           Dequeued false 30]).
Proof.
  split; [lia|]. apply (double_buffer_batch (fun _ : Z => 0) 16 10 20 30 7). lia.
Defined.

(** C4.  On a fresh [DoubleBufferSPSC] with room for two elements, the
    calls enqueue(a), enqueue(b), swap_buffers, enqueue(c), enqueue(d),
    swap_buffers, with no [dequeue] in between, are all accepted and
    leave [c; d] in the read buffer and nothing else anywhere: the
    first pair is gone.  Any number of [dequeue]s then returns [c],
    [d] and after that false; and whatever calls follow, the values
    they hand out are [c], [d] and values enqueued later, in that
    order. *)
Theorem premature_swap_discards {T : Type} (moved_from : T -> T) (M : Z)
    (a b c d item : T) :
  2 <= M <= SIZE_MAX ->
  let q := DoubleBuffer.Build [] [c; d] DoubleBuffer.Buffer1
             DoubleBuffer.Buffer2 true 0 0 M in
  run (DoubleBuffer.step moved_from)
      [DoubleBuffer.CEnqueue a; DoubleBuffer.CEnqueue b;
       DoubleBuffer.CSwapBuffers;
       DoubleBuffer.CEnqueue c; DoubleBuffer.CEnqueue d;
       DoubleBuffer.CSwapBuffers]
      (DoubleBuffer.construct M) item
  = Some (q, item,
          [Enqueued a true; Enqueued b true; Swapped;
           Enqueued c true; Enqueued d true; Swapped]) /\
  (forall n, exists q' item' log,
     run (DoubleBuffer.step moved_from) (replicate n DoubleBuffer.CDequeue)
         q item = Some (q', item', log) /\
     dequeued log = take n [c; d]) /\
  (forall calls, exists q' item' log,
     run (DoubleBuffer.step moved_from) calls q item = Some (q', item', log) /\
     dequeued log `sublist_of` [c; d] ++ enqueued log).
Proof.
  intros HM q.
  assert (Hq : DoubleBuffer.wf q).
  { unfold DoubleBuffer.wf, size_of. simpl. split_and!; [done|lia..]. }
  split_and!.
  - eapply run_cons; [apply db_step_enqueue; unfold size_of; simpl; lia|].
    eapply run_cons; [apply db_step_enqueue; unfold size_of; simpl; lia|].
    eapply run_cons; [reflexivity|].
    eapply run_cons; [apply db_step_enqueue; unfold size_of; simpl; lia|].
    eapply run_cons; [apply db_step_enqueue; unfold size_of; simpl; lia|].
    eapply run_cons; reflexivity.
  - intros n. by apply db_drain.
  - intros calls.
    destruct (run_lossy _ _ _ (db_lossy_step moved_from) calls q item Hq)
      as (q' & item' & log & Hr & _ & Hl).
    exists q', item', log. split; [done|].
    trans (dequeued log ++ DoubleBuffer.contents q'); [|done].
    by apply sublist_inserts_r.
Qed.

Lemma premature_swap_discards_witness :
  2 <= 2 <= SIZE_MAX /\
  (exists q' item' log,
     run (DoubleBuffer.step (fun _ : Z => 0))
         (replicate 5 DoubleBuffer.CDequeue)
         (DoubleBuffer.Build [] [3; 4] DoubleBuffer.Buffer1
            DoubleBuffer.Buffer2 true 0 0 2) 9
       = Some (q', item', log) /\
     dequeued log = [3; 4]).
Proof.
  assert (HM : 2 <= 2 <= SIZE_MAX) by (split; discriminate).
  split; [exact HM|].
  destruct (premature_swap_discards (fun _ : Z => 0) 2 1 2 3 4 9 HM)
    as (_ & Hn & _).
  exact (Hn 5%nat).
Defined.

(** C5.  On each of the three queues, [dequeue] on a fresh queue, and
    [dequeue] after any run that has dequeued as many elements as it
    has enqueued, returns false and leaves the caller's variable as it
    was (and the queue too). *)
Theorem dequeue_on_empty {T : Type} (Size M1 M2 : Z) (moved_from : T -> T)
    (slots : list T) (calls1 calls2 : list (call T))
    (calls3 : list (DoubleBuffer.call T)) (item x : T) :
  SPSC.static_assert Size ->
  length slots = Z.to_nat Size ->
  is_size_t M2 ->
  (SPSC.dequeue Size moved_from (SPSC.construct slots) x
     = Some (false, x, SPSC.construct slots) /\
   exists q item' log,
     run (SPSC.step Size moved_from) calls1 (SPSC.construct slots) item
       = Some (q, item', log) /\
     (length (dequeued log) = length (enqueued log) ->
      SPSC.dequeue Size moved_from q x = Some (false, x, q))) /\
  (Locked.dequeue (Locked.construct M1) x = (false, x, Locked.construct M1) /\
   exists q item' log,
     run Locked.step calls2 (Locked.construct M1) item
       = Some (q, item', log) /\
     (length (dequeued log) = length (enqueued log) ->
      Locked.dequeue q x = (false, x, q))) /\
  (DoubleBuffer.dequeue moved_from (DoubleBuffer.construct M2) x
     = Some (false, x, DoubleBuffer.construct M2) /\
   exists q item' log,
     run (DoubleBuffer.step moved_from) calls3 (DoubleBuffer.construct M2) item
       = Some (q, item', log) /\
     (length (dequeued log) = length (enqueued log) ->
      DoubleBuffer.dequeue moved_from q x = Some (false, x, q))).
Proof.
  intros HSize Hslots HM2. split_and!.
  - done.
  - destruct (spsc_run Size moved_from HSize slots calls1 item Hslots)
      as (q & item' & log & Hr & Hq & Hlog).
    exists q, item', log. split; [done|]. intros Hlen.
    apply (f_equal length) in Hlog. rewrite length_app in Hlog.
    pose proof (length_contents Size HSize q Hq) as Hc.
    pose proof (count_range Size HSize q Hq).
    destruct (dequeue_spec Size moved_from HSize q x Hq)
      as [(_ & Hd)|(? & _)]; [done | lia].
  - done.
  - destruct (locked_run M1 calls2 item) as (q & item' & log & Hr & Hlog).
    exists q, item', log. split; [done|]. intros Hlen.
    apply (f_equal length) in Hlog. rewrite length_app in Hlog.
    unfold Locked.dequeue, Locked.contents in *.
    destruct (Locked.queue_ q); [done | simpl in *; lia].
  - done.
  - destruct (run_lossy _ _ _ (db_lossy_step moved_from) calls3
                (DoubleBuffer.construct M2) item (db_wf_construct M2 HM2))
      as (q & item' & log & Hr & Hq & Hlog).
    exists q, item', log. split; [done|]. intros Hlen.
    apply sublist_length in Hlog. rewrite length_app in Hlog. simpl in Hlog.
    unfold DoubleBuffer.contents in Hlog. rewrite length_app in Hlog.
    destruct (db_dequeue_spec moved_from q x Hq)
      as [(_ & Hd)|(v & q' & _ & _ & Hu & _)]; [done|].
    rewrite Hu in Hlog. simpl in Hlog. lia.
Qed.

Lemma dequeue_on_empty_witness :
  SPSC.static_assert 4 /\ is_size_t 2 /\
  (exists q item' log,
     run (SPSC.step 4 (fun _ : Z => 0))
         [Enqueue 1; Enqueue 2; Dequeue; Dequeue]
         (SPSC.construct [0; 0; 0; 0]) 0 = Some (q, item', log) /\
     (length (dequeued log) = length (enqueued log) ->
      SPSC.dequeue 4 (fun _ : Z => 0) q 9 = Some (false, 9, q))) /\
  (exists q item' log,
     run (DoubleBuffer.step (fun _ : Z => 0))
         [DoubleBuffer.CEnqueue 1; DoubleBuffer.CSwapBuffers;
          DoubleBuffer.CSwapBuffers; DoubleBuffer.CDequeue]
         (DoubleBuffer.construct 2) 0 = Some (q, item', log) /\
     (length (dequeued log) = length (enqueued log) ->
      DoubleBuffer.dequeue (fun _ : Z => 0) q 9 = Some (false, 9, q))).
Proof.
  assert (HSize : SPSC.static_assert 4).
  { split; [split; [reflexivity | discriminate] | reflexivity]. }
  assert (HM : is_size_t 2) by (split; discriminate).
  split; [exact HSize|]. split; [exact HM|].
  destruct (dequeue_on_empty 4 2 2 (fun _ : Z => 0) [0; 0; 0; 0]
              [Enqueue 1; Enqueue 2; Dequeue; Dequeue] []
              [DoubleBuffer.CEnqueue 1; DoubleBuffer.CSwapBuffers;
               DoubleBuffer.CSwapBuffers; DoubleBuffer.CDequeue]
              0 9 HSize eq_refl HM)
    as ((_ & H1) & _ & (_ & H3)).
  split; [exact H1 | exact H3].
Defined.

(** C6.  On a fresh [LockedQueue] with [max_size = 2], the calls
    enqueue(A), enqueue(B), enqueue(C), dequeue, enqueue(C), dequeue,
    dequeue, dequeue give true, true, false, A, true, B, C, false; the
    last [dequeue] leaves the caller's variable as it was, and the queue
    ends empty. *)
Theorem locked_queue_scenario {T : Type} (A B C item : T) :
  run Locked.step
      [Enqueue A; Enqueue B; Enqueue C; Dequeue; Enqueue C; Dequeue;
       Dequeue; Dequeue]
      (Locked.construct 2) item
  = Some (Locked.construct 2, C,
          [Enqueued A true; Enqueued B true; Enqueued C false;
           Dequeued true A; Enqueued C true; Dequeued true B;
           Dequeued true C; Dequeued false C]).
Proof. reflexivity. Qed.

(** C7.  In every state whose two roles are held by different buffers
    (every state of a run is one), [swap_buffers] exchanges the write
    and the read role, sets the read cursor to zero, empties the buffer
    that becomes the write buffer and leaves the buffer that becomes the
    read buffer with the contents it had as write buffer; afterwards
    the two roles are still held by different buffers. *)
Theorem swap_buffers_roles {T : Type} (q : @DoubleBuffer.DoubleBufferSPSC T) :
  DoubleBuffer.write_buffer_ q <> DoubleBuffer.read_buffer_ q ->
  let q' := DoubleBuffer.swap_buffers q in
  DoubleBuffer.write_buffer_ q' = DoubleBuffer.read_buffer_ q /\
  DoubleBuffer.read_buffer_ q' = DoubleBuffer.write_buffer_ q /\
  DoubleBuffer.read_index_ q' = 0 /\
  DoubleBuffer.deref q' (DoubleBuffer.write_buffer_ q') = [] /\
  DoubleBuffer.deref q' (DoubleBuffer.read_buffer_ q')
    = DoubleBuffer.deref q (DoubleBuffer.write_buffer_ q) /\
  DoubleBuffer.write_buffer_ q' <> DoubleBuffer.read_buffer_ q'.
Proof.
  destruct q as [b1 b2 [|] [|] f wi ri M]; simpl; intros Hne;
    by split_and!.
Qed.

Lemma swap_buffers_roles_witness :
  DoubleBuffer.write_buffer_ Samples.busy_double
    <> DoubleBuffer.read_buffer_ Samples.busy_double /\
  DoubleBuffer.swap_buffers Samples.busy_double
  = DoubleBuffer.Build [1; 2] [] DoubleBuffer.Buffer2
      DoubleBuffer.Buffer1 true 0 0 8 /\
  DoubleBuffer.deref (DoubleBuffer.swap_buffers Samples.busy_double)
    (DoubleBuffer.read_buffer_ (DoubleBuffer.swap_buffers Samples.busy_double))
  = [1; 2].
Proof.
  assert (Hne : DoubleBuffer.write_buffer_ Samples.busy_double
                <> DoubleBuffer.read_buffer_ Samples.busy_double)
    by discriminate.
  split; [exact Hne|]. split; [reflexivity|].
  destruct (swap_buffers_roles Samples.busy_double Hne)
    as (_ & _ & _ & _ & Hr & _).
  exact Hr.
Defined.

(** C8.  In every state a fresh [SPSCLockFreeQueue] gets into by calls
    of [enqueue] and [dequeue], both indices lie in [0, Size); [empty()]
    holds, and nothing is stored, exactly when [head = tail]; [full()]
    holds, and [capacity()] elements are stored, exactly when
    [(tail + 1) mod Size = head]; and [capacity()] is [Size - 1]. *)
Theorem ring_invariants {T : Type} (Size : Z) (moved_from : T -> T)
    (q : @SPSC.SPSCLockFreeQueue T) :
  SPSC.static_assert Size ->
  SPSC.reachable Size moved_from q ->
  (0 <= SPSC.head q < Size /\ 0 <= SPSC.tail q < Size) /\
  (SPSC.empty q = true <-> SPSC.head q = SPSC.tail q) /\
  (SPSC.contents Size q = [] <-> SPSC.head q = SPSC.tail q) /\
  (SPSC.full Size q = true <-> (SPSC.tail q + 1) mod Size = SPSC.head q) /\
  (size_of (SPSC.contents Size q) = SPSC.capacity Size
   <-> (SPSC.tail q + 1) mod Size = SPSC.head q) /\
  SPSC.capacity Size = Size - 1.
Proof.
  intros HSize Hr. pose proof (reachable_wf Size moved_from HSize q Hr) as Hq.
  pose proof Hq as (Hh & Ht & _).
  pose proof (count_range Size HSize q Hq) as Hc.
  pose proof (length_contents Size HSize q Hq) as Hl.
  split; [done|].
  split; [unfold SPSC.empty; apply Z.eqb_eq|].
  split.
  { rewrite (count_empty Size HSize q Hq), <- length_zero_iff_nil. lia. }
  split.
  { unfold SPSC.full. rewrite (next_index Size HSize) by done.
    apply Z.eqb_eq. }
  split; [|by apply capacity_eq].
  rewrite (count_full Size HSize q Hq), (capacity_eq Size HSize).
  unfold size_of. lia.
Qed.

Lemma ring_invariants_witness :
  SPSC.static_assert 4 /\
  SPSC.reachable 4 (fun _ : Z => 0) Samples.full_ring /\
  SPSC.tail Samples.full_ring < 4 /\
  (SPSC.full 4 Samples.full_ring = true
   <-> (SPSC.tail Samples.full_ring + 1) mod 4 = SPSC.head Samples.full_ring).
Proof.
  assert (HSize : SPSC.static_assert 4).
  { split; [split; [reflexivity | discriminate] | reflexivity]. }
  assert (Hr : SPSC.reachable 4 (fun _ : Z => 0) Samples.full_ring).
  { eapply (SPSC.reach_enqueue _ _ (SPSC.Build 1 3 [0; 3; 4; 0]) 5 true);
      [|reflexivity].
    eapply (SPSC.reach_enqueue _ _ (SPSC.Build 1 2 [0; 3; 0; 0]) 4 true);
      [|reflexivity].
    eapply (SPSC.reach_enqueue _ _ (SPSC.Build 1 1 [0; 0; 0; 0]) 3 true);
      [|reflexivity].
    eapply (SPSC.reach_dequeue _ _ (SPSC.Build 0 1 [2; 0; 0; 0]) 7 true 2);
      [|reflexivity].
    eapply (SPSC.reach_enqueue _ _ (SPSC.construct [0; 0; 0; 0]) 2 true);
      [|reflexivity].
    apply SPSC.reach_construct. reflexivity. }
  split; [exact HSize|]. split; [exact Hr|].
  destruct (ring_invariants 4 (fun _ : Z => 0) Samples.full_ring HSize Hr)
    as ((_ & _ & Ht) & _ & _ & Hf & _).
  split; [exact Ht | exact Hf].
Defined.

(** C9.  [buffer_was_swapped] returns false on a fresh queue.  After a
    [swap_buffers], in any state of a run, and whatever [enqueue]s and
    [dequeue]s follow it, the next [buffer_was_swapped] returns true;
    from then on, as long as no [swap_buffers] is called, every
    [buffer_was_swapped] returns false. *)
Theorem swapped_flag_one_shot {T : Type} (moved_from : T -> T) (M : Z)
    (q : @DoubleBuffer.DoubleBufferSPSC T)
    (calls1 calls2 : list (DoubleBuffer.call T)) (item1 item2 : T) :
  DoubleBuffer.reachable moved_from q ->
  forallb DoubleBuffer.is_enqueue_or_dequeue calls1 = true ->
  forallb (fun c => negb (DoubleBuffer.is_swap c)) calls2 = true ->
  (DoubleBuffer.buffer_was_swapped (DoubleBuffer.construct (T:=T) M)).1 = false /\
  exists q1 i1 log1,
    run (DoubleBuffer.step moved_from) calls1 (DoubleBuffer.swap_buffers q) item1
      = Some (q1, i1, log1) /\
    (DoubleBuffer.buffer_was_swapped q1).1 = true /\
    exists q2 i2 log2,
      run (DoubleBuffer.step moved_from) calls2
          (DoubleBuffer.buffer_was_swapped q1).2 item2
        = Some (q2, i2, log2) /\
      Forall (fun flag => flag = false) (DoubleBuffer.swapped_flags log2) /\
      (DoubleBuffer.buffer_was_swapped q2).1 = false.
Proof.
  intros Hr Hc1 Hc2. split; [done|].
  apply db_reachable_wf in Hr as Hq.
  destruct (db_swap_spec q Hq) as (Hq' & _).
  destruct (run_safe _ _ _ _ (db_flag_kept moved_from true) calls1
              (DoubleBuffer.swap_buffers q) item1)
    as (q1 & i1 & log1 & Hrun1 & [Hq1 Hf1] & _); [done| |].
  { by apply (permitted_forallb _ _ DoubleBuffer.is_enqueue_or_dequeue). }
  exists q1, i1, log1. split; [done|]. split; [done|].
  destruct (db_poll_spec q1 false Hq1) as (Hq1' & _).
  destruct (run_safe _ _ _ _ (db_flag_down moved_from) calls2
              (DoubleBuffer.buffer_was_swapped q1).2 item2)
    as (q2 & i2 & log2 & Hrun2 & [Hq2 Hf2] & Hlog); [done| |].
  { by apply (permitted_forallb _ _
                (fun c => negb (DoubleBuffer.is_swap c))). }
  exists q2, i2, log2. split; [done|]. split; [|done].
  by apply swapped_flags_down.
Qed.

Lemma swapped_flag_one_shot_witness :
  DoubleBuffer.reachable (fun _ : Z => 0) Samples.started_double /\
  exists q1 i1 log1,
    run (DoubleBuffer.step (fun _ : Z => 0))
        [DoubleBuffer.CDequeue; DoubleBuffer.CEnqueue 6]
        (DoubleBuffer.swap_buffers Samples.started_double) 0
      = Some (q1, i1, log1) /\
    (DoubleBuffer.buffer_was_swapped q1).1 = true /\
    exists q2 i2 log2,
      run (DoubleBuffer.step (fun _ : Z => 0))
          [DoubleBuffer.CBufferWasSwapped; DoubleBuffer.CEnqueue 7;
           DoubleBuffer.CBufferWasSwapped]
          (DoubleBuffer.buffer_was_swapped q1).2 1
        = Some (q2, i2, log2) /\
      Forall (fun flag => flag = false) (DoubleBuffer.swapped_flags log2) /\
      (DoubleBuffer.buffer_was_swapped q2).1 = false.
Proof.
  assert (Hr : DoubleBuffer.reachable (fun _ : Z => 0) Samples.started_double).
  { apply DoubleBuffer.reach_enqueue, DoubleBuffer.reach_construct.
    split; discriminate. }
  split; [exact Hr|].
  apply (swapped_flag_one_shot (fun _ : Z => 0) 4 Samples.started_double
           [DoubleBuffer.CDequeue; DoubleBuffer.CEnqueue 6]
           [DoubleBuffer.CBufferWasSwapped; DoubleBuffer.CEnqueue 7;
            DoubleBuffer.CBufferWasSwapped] 0 1 Hr); reflexivity.
Defined.

(** C10.  A call of [enqueue] or [dequeue] that returns false leaves
    the queue as it was, whatever its state: the indices and the slots
    of [SPSCLockFreeQueue], the elements of [LockedQueue], and both
    buffers, both roles, the read cursor and the flag of
    [DoubleBufferSPSC]; a failed [dequeue] leaves the caller's variable
    as it was too. *)
Theorem failed_call_keeps_state {T : Type} (Size : Z) (moved_from : T -> T)
    (qs : @SPSC.SPSCLockFreeQueue T) (ql : @Locked.LockedQueue T)
    (qd : @DoubleBuffer.DoubleBufferSPSC T) (x item : T) :
  (forall q', SPSC.enqueue Size qs x = Some (false, q') -> q' = qs) /\
  (forall item' q',
     SPSC.dequeue Size moved_from qs item = Some (false, item', q') ->
     q' = qs /\ item' = item) /\
  (forall q', Locked.enqueue ql x = (false, q') -> q' = ql) /\
  (forall item' q',
     Locked.dequeue ql item = (false, item', q') -> q' = ql /\ item' = item) /\
  (forall q', DoubleBuffer.enqueue qd x = (false, q') -> q' = qd) /\
  (forall item' q',
     DoubleBuffer.dequeue moved_from qd item = Some (false, item', q') ->
     q' = qd /\ item' = item).
Proof.
  split_and!.
  - intros q'. unfold SPSC.enqueue. destruct (_ =? _); [congruence|].
    destruct (array_set _ _ _); simpl; congruence.
  - intros item' q'. unfold SPSC.dequeue.
    destruct (_ =? _); [by intros [= <- <-]|].
    destruct (array_get _ _) as [v|]; simpl; [|done].
    destruct (array_set _ _ _); simpl; congruence.
  - intros q'. unfold Locked.enqueue. destruct (_ >=? _); congruence.
  - intros item' q'. unfold Locked.dequeue.
    destruct (Locked.queue_ ql); [by intros [= <- <-] | congruence].
  - intros q'. unfold DoubleBuffer.enqueue. destruct (_ >=? _); congruence.
  - intros item' q'. unfold DoubleBuffer.dequeue.
    destruct (_ >=? _); [by intros [= <- <-]|].
    destruct (array_get _ _) as [v|]; simpl; [|done].
    destruct (array_set _ _ _); simpl; congruence.
Qed.

Lemma failed_call_keeps_state_witness :
  (SPSC.enqueue 4 Samples.full_ring 9 = Some (false, Samples.full_ring) /\
   Samples.full_ring = Samples.full_ring) /\
  (SPSC.dequeue 4 (fun _ => 0) Samples.empty_ring 9
     = Some (false, 9, Samples.empty_ring) /\
   Samples.empty_ring = Samples.empty_ring /\ 9 = 9) /\
  (Locked.enqueue Samples.full_locked 9 = (false, Samples.full_locked) /\
   Samples.full_locked = Samples.full_locked) /\
  (Locked.dequeue Samples.empty_locked 9 = (false, 9, Samples.empty_locked) /\
   Samples.empty_locked = Samples.empty_locked /\ 9 = 9) /\
  (DoubleBuffer.enqueue Samples.full_double 9 = (false, Samples.full_double) /\
   Samples.full_double = Samples.full_double) /\
  (DoubleBuffer.dequeue (fun _ => 0) Samples.full_double 9
     = Some (false, 9, Samples.full_double) /\
   Samples.full_double = Samples.full_double /\ 9 = 9).
Proof.
  pose proof (failed_call_keeps_state 4 (fun _ => 0) Samples.full_ring
                Samples.full_locked Samples.full_double 9 9)
    as (H1 & _ & H3 & _ & H5 & H6).
  pose proof (failed_call_keeps_state 4 (fun _ => 0) Samples.empty_ring
                Samples.empty_locked Samples.full_double 9 9)
    as (_ & H2 & _ & H4 & _).
  split; [split; [reflexivity | apply H1; reflexivity]|].
  split; [split; [reflexivity
                 | apply (H2 9 Samples.empty_ring); reflexivity]|].
  split; [split; [reflexivity | apply H3; reflexivity]|].
  split; [split; [reflexivity
                 | apply (H4 9 Samples.empty_locked); reflexivity]|].
  split; [split; [reflexivity | apply H5; reflexivity]|].
  split; [reflexivity | apply (H6 9 Samples.full_double); reflexivity].
Defined.

(** * Further properties *)

(** ** The consumer's last loop *)

Lemma last_cons_default {A} (l : list A) (v d : A) :
  List.last (v :: l) d = List.last l v.
Proof.
  revert v d. induction l as [|b l IH]; intros v d; [done|].
  change (List.last (v :: b :: l) d) with (List.last (b :: l) d).
  by rewrite !IH.
Qed.

Section ConsumerFacts.
Context {T Q : Type}.
Variable queue_empty : Q -> bool.
Variable queue_dequeue : Q -> T -> option (bool * T * Q).
Variable inv : Q -> Prop.
Variable contents : Q -> list T.

Hypothesis empty_contents :
  forall q, inv q -> queue_empty q = true <-> contents q = [].
Hypothesis dequeue_contents :
  forall q data, inv q -> contents q <> [] ->
    exists v q', queue_dequeue q data = Some (true, v, q') /\ inv q' /\
      contents q = v :: contents q'.

(** With more fuel than elements the loop ends: the queue is empty,
    [data] holds the last element handed out and [consumed] has grown
    by their number. *)
Lemma consume_rest_spec fuel q data consumed :
  inv q -> (length (contents q) < fuel)%nat ->
  exists q',
    Harness.consume_rest queue_empty queue_dequeue fuel q data consumed
      = Some (q', List.last (contents q) data,
              if decide (contents q = []) then consumed
              else wrap (consumed + size_of (contents q))) /\
    inv q' /\ contents q' = [].
Proof.
  revert q data consumed.
  induction fuel as [|fuel IH]; intros q data consumed Hq Hfuel; [lia|].
  simpl. destruct (queue_empty q) eqn:He; simpl.
  - apply (empty_contents q Hq) in He. exists q. rewrite He. by case_decide.
  - assert (Hne : contents q <> []).
    { intros Hnil. apply (empty_contents q Hq) in Hnil. congruence. }
    destruct (dequeue_contents q data Hq Hne) as (v & q1 & -> & Hq1 & Hc).
    simpl. rewrite Hc in Hfuel |- *. simpl in Hfuel.
    destruct (IH q1 v (wrap (consumed + 1)) Hq1 ltac:(lia))
      as (q' & -> & Hq' & Hnil).
    exists q'. split; [|done]. f_equal. f_equal; [f_equal|].
    + by rewrite last_cons_default.
    + destruct (decide (v :: contents q1 = [])) as [?|_]; [done|].
      unfold size_of, wrap. rewrite length_cons.
      destruct (decide (contents q1 = [])) as [Hd|_].
      * by rewrite Hd.
      * rewrite Zplus_mod_idemp_l. f_equal. lia.
Qed.
End ConsumerFacts.

(** ** SPSCLockFreeQueue: the other methods *)

Section SPSCMore.
Context {T : Type}.
Variable Size : Z.
Variable moved_from : T -> T.
Hypothesis HSize : SPSC.static_assert Size.

Implicit Types q : @SPSC.SPSCLockFreeQueue T.

Lemma spsc_empty_contents q :
  SPSC.wf Size q -> SPSC.empty q = true <-> SPSC.contents Size q = [].
Proof.
  intros Hq. unfold SPSC.empty. rewrite Z.eqb_eq.
  rewrite (count_empty Size HSize q Hq), <- length_zero_iff_nil.
  rewrite (length_contents Size HSize q Hq).
  pose proof (count_range Size HSize q Hq). lia.
Qed.

Lemma spsc_dequeue_contents q data :
  SPSC.wf Size q -> SPSC.contents Size q <> [] ->
  exists v q', SPSC.dequeue Size moved_from q data = Some (true, v, q') /\
    SPSC.wf Size q' /\ SPSC.contents Size q = v :: SPSC.contents Size q'.
Proof.
  intros Hq Hne.
  destruct (dequeue_spec Size moved_from HSize q data Hq)
    as [(Hc & _)|(_ & v & q' & Hd & Hq' & _ & Hcont)].
  - pose proof (length_contents Size HSize q Hq) as Hl.
    rewrite Hc in Hl. by apply nil_length_inv in Hl.
  - by exists v, q'.
Qed.

(** A full ring refuses a whole row. *)
Lemma spsc_refuse (xs : list T) q item :
  SPSC.wf Size q -> SPSC.count Size q = Size - 1 ->
  run (SPSC.step Size moved_from) (Enqueue <$> xs) q item
    = Some (q, item, (fun x => Enqueued x false) <$> xs).
Proof.
  intros Hq Hfull. induction xs as [|x xs IH]; [done|].
  rewrite !fmap_cons. eapply run_cons; [|done].
  destruct (enqueue_spec Size HSize q x Hq) as [(_ & He)|(? & _)]; [|lia].
  simpl. by rewrite He.
Qed.
End SPSCMore.

Lemma enqueue_flags_refused {T} (xs : list T) :
  enqueue_flags ((fun x => Enqueued x false) <$> xs)
  = replicate (length xs) false.
Proof.
  induction xs as [|x xs IH]; [done|].
  rewrite fmap_cons. cbn [enqueue_flags length replicate]. by rewrite IH.
Qed.

(** X1.  In every run from a fresh [SPSCLockFreeQueue], [size()] is the
    number of elements enqueued and not yet dequeued, also when [tail]
    has wrapped below [head], and it never exceeds [capacity()]. *)
Theorem spsc_size_counts {T : Type} (Size : Z) (moved_from : T -> T)
    (slots : list T) (calls : list (call T)) (item : T) :
  SPSC.static_assert Size ->
  length slots = Z.to_nat Size ->
  exists q item' log,
    run (SPSC.step Size moved_from) calls (SPSC.construct slots) item
      = Some (q, item', log) /\
    SPSC.size Size q = size_of (enqueued log) - size_of (dequeued log) /\
    0 <= SPSC.size Size q <= SPSC.capacity Size.
Proof.
  intros HSize Hslots.
  destruct (spsc_run Size moved_from HSize slots calls item Hslots)
    as (q & item' & log & Hr & Hq & Hlog).
  exists q, item', log. split; [done|].
  rewrite (size_count Size HSize), (capacity_eq Size HSize).
  pose proof (count_range Size HSize q Hq).
  pose proof (length_contents Size HSize q Hq) as Hl.
  apply (f_equal length) in Hlog. rewrite length_app in Hlog.
  unfold size_of. lia.
Qed.

Lemma spsc_size_counts_witness :
  SPSC.static_assert 4 /\
  exists q item' log,
    run (SPSC.step 4 (fun _ : Z => 0))
        [Enqueue 1; Enqueue 2; Enqueue 3; Dequeue; Dequeue; Enqueue 4;
         Enqueue 5]
        (SPSC.construct [0; 0; 0; 0]) 0 = Some (q, item', log) /\
    SPSC.size 4 q = size_of (enqueued log) - size_of (dequeued log) /\
    0 <= SPSC.size 4 q <= SPSC.capacity 4.
Proof.
  assert (HSize : SPSC.static_assert 4).
  { split; [split; [reflexivity | discriminate] | reflexivity]. }
  split; [exact HSize|].
  apply (spsc_size_counts 4 (fun _ : Z => 0) [0; 0; 0; 0]
           [Enqueue 1; Enqueue 2; Enqueue 3; Dequeue; Dequeue; Enqueue 4;
            Enqueue 5] 0 HSize eq_refl).
Defined.

(** X2.  In every state of a run, [enqueue] and [dequeue] stay inside
    the array, [enqueue] returns the negation of [full()] and [dequeue]
    the negation of [empty()]. *)
Theorem spsc_calls_in_bounds {T : Type} (Size : Z) (moved_from : T -> T)
    (q : @SPSC.SPSCLockFreeQueue T) (x item : T) :
  SPSC.static_assert Size ->
  SPSC.reachable Size moved_from q ->
  (exists q', SPSC.enqueue Size q x = Some (negb (SPSC.full Size q), q')) /\
  (exists item' q',
     SPSC.dequeue Size moved_from q item
       = Some (negb (SPSC.empty q), item', q')).
Proof.
  intros HSize Hr. pose proof (reachable_wf Size moved_from HSize q Hr) as Hq.
  pose proof Hq as (Hh & Ht & _). split.
  - rewrite (enqueue_wf Size HSize q x Hq). unfold SPSC.full.
    rewrite (next_index Size HSize) by done.
    destruct (_ =? _); by eexists.
  - destruct (dequeue_wf Size moved_from HSize q item Hq) as (v & _ & ->).
    unfold SPSC.empty. destruct (_ =? _); by eexists _, _.
Qed.

Lemma spsc_calls_in_bounds_witness :
  SPSC.static_assert 4 /\
  SPSC.reachable 4 (fun _ : Z => 0) (SPSC.construct [0; 0; 0; 0]) /\
  exists q',
    SPSC.enqueue 4 (SPSC.construct [0; 0; 0; 0]) 7
      = Some (negb (SPSC.full 4 (SPSC.construct [0; 0; 0; 0])), q').
Proof.
  assert (HSize : SPSC.static_assert 4).
  { split; [split; [reflexivity | discriminate] | reflexivity]. }
  assert (Hr : SPSC.reachable 4 (fun _ : Z => 0) (SPSC.construct [0; 0; 0; 0]))
    by (apply SPSC.reach_construct; reflexivity).
  split; [exact HSize|]. split; [exact Hr|].
  apply (spsc_calls_in_bounds 4 (fun _ : Z => 0)
           (SPSC.construct [0; 0; 0; 0]) 7 0 HSize Hr).
Defined.

(** X3.  In a state of a run, [empty()] and [full()] hold together
    exactly when [Size] is 1: a ring of one slot stores nothing, and a
    larger ring is never empty and full at once. *)
Theorem spsc_empty_and_full {T : Type} (Size : Z) (moved_from : T -> T)
    (q : @SPSC.SPSCLockFreeQueue T) :
  SPSC.static_assert Size ->
  SPSC.reachable Size moved_from q ->
  (SPSC.empty q = true /\ SPSC.full Size q = true) <-> Size = 1.
Proof.
  intros HSize Hr. pose proof (reachable_wf Size moved_from HSize q Hr) as Hq.
  pose proof Hq as (Hh & Ht & _).
  pose proof (count_range Size HSize q Hq) as Hc.
  unfold SPSC.empty, SPSC.full. rewrite (next_index Size HSize) by done.
  rewrite !Z.eqb_eq, (count_empty Size HSize q Hq),
    (count_full Size HSize q Hq).
  lia.
Qed.

Lemma spsc_empty_and_full_witness :
  SPSC.static_assert 1 /\
  SPSC.reachable 1 (fun _ : Z => 0) (SPSC.construct [0]) /\
  SPSC.empty (SPSC.construct [0]) = true /\
  SPSC.full 1 (SPSC.construct [0]) = true.
Proof.
  assert (HSize : SPSC.static_assert 1).
  { split; [split; [reflexivity | discriminate] | reflexivity]. }
  assert (Hr : SPSC.reachable 1 (fun _ : Z => 0) (SPSC.construct [0]))
    by (apply SPSC.reach_construct; reflexivity).
  split; [exact HSize|]. split; [exact Hr|].
  apply (spsc_empty_and_full 1 (fun _ : Z => 0) (SPSC.construct [0]) HSize Hr).
  reflexivity.
Defined.

(** X4.  From a state of a run, a row of [enqueue]s without a
    [dequeue] in between is accepted for exactly
    [capacity() - size()] elements and refused from then on. *)
Theorem spsc_room {T : Type} (Size : Z) (moved_from : T -> T)
    (q : @SPSC.SPSCLockFreeQueue T) (xs : list T) (item : T) :
  SPSC.static_assert Size ->
  SPSC.reachable Size moved_from q ->
  let free := Z.to_nat (SPSC.capacity Size - SPSC.size Size q) in
  exists q' log,
    run (SPSC.step Size moved_from) (Enqueue <$> xs) q item
      = Some (q', item, log) /\
    enqueue_flags log
    = replicate (length xs `min` free) true
      ++ replicate (length xs - free) false.
Proof.
  intros HSize Hr free.
  pose proof (reachable_wf Size moved_from HSize q Hr) as Hq.
  pose proof (count_range Size HSize q Hq) as Hc.
  assert (Hfree : Z.of_nat free = Size - 1 - SPSC.count Size q).
  { unfold free. rewrite (size_count Size HSize), (capacity_eq Size HSize).
    lia. }
  destruct (spsc_fill Size moved_from HSize (take free xs) q item Hq)
    as (q1 & Hr1 & Hq1 & Hc1).
  { unfold size_of. rewrite length_take. lia. }
  unfold size_of in Hc1. rewrite length_take in Hc1.
  replace (Enqueue <$> xs)
    with ((Enqueue <$> take free xs) ++ (Enqueue <$> drop free xs))
    by (by rewrite <- fmap_app, take_drop).
  destruct (decide (length xs <= free)%nat) as [Hle|Hgt].
  - rewrite (drop_ge xs free Hle), app_nil_r.
    eexists q1, _. split; [done|].
    rewrite enqueue_flags_accepted, length_take.
    replace (length xs - free)%nat with 0%nat by lia.
    by rewrite app_nil_r, Nat.min_comm.
  - eexists q1, _. split.
    + eapply run_app; [done|].
      apply (spsc_refuse Size moved_from HSize); [done|lia].
    + rewrite enqueue_flags_app, enqueue_flags_accepted,
        enqueue_flags_refused, length_take, length_drop.
      by rewrite Nat.min_comm.
Qed.

Lemma spsc_room_witness :
  SPSC.static_assert 4 /\
  SPSC.reachable 4 (fun _ : Z => 0) Samples.empty_ring /\
  exists q' log,
    run (SPSC.step 4 (fun _ : Z => 0)) (Enqueue <$> [1; 2; 3; 4; 5])
        Samples.empty_ring 0 = Some (q', 0, log) /\
    enqueue_flags log = [true; true; true; false; false].
Proof.
  assert (HSize : SPSC.static_assert 4).
  { split; [split; [reflexivity | discriminate] | reflexivity]. }
  assert (Hr : SPSC.reachable 4 (fun _ : Z => 0) Samples.empty_ring).
  { eapply (SPSC.reach_dequeue _ _ (SPSC.Build 1 2 [0; 0; 0; 0]) 7 true 0);
      [|reflexivity].
    eapply (SPSC.reach_dequeue _ _ (SPSC.Build 0 2 [0; 0; 0; 0]) 7 true 0);
      [|reflexivity].
    eapply (SPSC.reach_enqueue _ _ (SPSC.Build 0 1 [0; 0; 0; 0]) 0 true);
      [|reflexivity].
    eapply (SPSC.reach_enqueue _ _ (SPSC.construct [0; 0; 0; 0]) 0 true);
      [|reflexivity].
    apply SPSC.reach_construct. reflexivity. }
  split; [exact HSize|]. split; [exact Hr|].
  apply (spsc_room 4 (fun _ : Z => 0) Samples.empty_ring [1; 2; 3; 4; 5] 0
           HSize Hr).
Defined.

(** X5.  The consumer's last loop on an [SPSCLockFreeQueue], started
    in a state of a run with [consumed = 0] and more fuel than
    [size()]: it ends with the queue empty, with [consumed] equal to
    the [size()] it started from and with [data] holding the element
    enqueued last (or its old value when there was none). *)
Theorem spsc_consume_rest {T : Type} (Size : Z) (moved_from : T -> T)
    (q : @SPSC.SPSCLockFreeQueue T) (fuel : nat) (data : T) :
  SPSC.static_assert Size ->
  SPSC.reachable Size moved_from q ->
  (Z.to_nat (SPSC.size Size q) < fuel)%nat ->
  exists q',
    Harness.consume_rest SPSC.empty (SPSC.dequeue Size moved_from)
                         fuel q data 0
      = Some (q', List.last (SPSC.contents Size q) data, SPSC.size Size q) /\
    SPSC.empty q' = true.
Proof.
  intros HSize Hr Hfuel.
  pose proof (reachable_wf Size moved_from HSize q Hr) as Hq.
  pose proof (count_range Size HSize q Hq) as Hc.
  pose proof (length_contents Size HSize q Hq) as Hl.
  pose proof (Size_pos Size HSize) as HS.
  rewrite (size_count Size HSize) in Hfuel |- *.
  destruct (consume_rest_spec SPSC.empty (SPSC.dequeue Size moved_from)
              (SPSC.wf Size) (SPSC.contents Size)
              (spsc_empty_contents Size HSize)
              (spsc_dequeue_contents Size moved_from HSize)
              fuel q data 0 Hq ltac:(lia))
    as (q' & Hrun & Hq' & Hnil).
  exists q'. split; [|by apply (spsc_empty_contents Size HSize)].
  rewrite Hrun. f_equal. f_equal.
  destruct (decide (SPSC.contents Size q = [])) as [Hd|_].
  - rewrite Hd in Hl. simpl in Hl. lia.
  - unfold size_of. rewrite Hl, Z.add_0_l, Z2Nat.id by lia.
    apply wrap_small. unfold is_size_t. lia.
Qed.

Lemma spsc_consume_rest_witness :
  SPSC.static_assert 4 /\
  SPSC.reachable 4 (fun _ : Z => 0) Samples.full_ring /\
  exists q',
    Harness.consume_rest SPSC.empty (SPSC.dequeue 4 (fun _ : Z => 0))
                         4 Samples.full_ring 9 0
      = Some (q', 5, 3) /\
    SPSC.empty q' = true.
Proof.
  assert (HSize : SPSC.static_assert 4).
  { split; [split; [reflexivity | discriminate] | reflexivity]. }
  assert (Hr : SPSC.reachable 4 (fun _ : Z => 0) Samples.full_ring).
  { eapply (SPSC.reach_enqueue _ _ (SPSC.Build 1 3 [0; 3; 4; 0]) 5 true);
      [|reflexivity].
    eapply (SPSC.reach_enqueue _ _ (SPSC.Build 1 2 [0; 3; 0; 0]) 4 true);
      [|reflexivity].
    eapply (SPSC.reach_enqueue _ _ (SPSC.Build 1 1 [0; 0; 0; 0]) 3 true);
      [|reflexivity].
    eapply (SPSC.reach_dequeue _ _ (SPSC.Build 0 1 [2; 0; 0; 0]) 7 true 2);
      [|reflexivity].
    eapply (SPSC.reach_enqueue _ _ (SPSC.construct [0; 0; 0; 0]) 2 true);
      [|reflexivity].
    apply SPSC.reach_construct. reflexivity. }
  split; [exact HSize|]. split; [exact Hr|].
  apply (spsc_consume_rest 4 (fun _ : Z => 0) Samples.full_ring 4 9 HSize Hr).
  vm_compute. reflexivity.
Defined.

(** ** LockedQueue: the other methods *)

Section LockedMore.
Context {T : Type}.

Implicit Types q : @Locked.LockedQueue T.

Lemma locked_bounded_step M :
  safe_step (T:=T) Locked.step always
    (fun q => size_of (Locked.queue_ q) <= M /\ Locked.max_size_ q = M)
    (fun _ => True).
Proof.
  intros [x|] q item [Hs HM] _; simpl.
  - destruct (locked_enqueue_spec q x) as [(_ & ->)|(Hroom & ->)].
    + by exists q, item, (Enqueued x false).
    + eexists _, item, (Enqueued x true). split; [done|]. split; [|done].
      simpl. unfold size_of in *. rewrite length_app. simpl. lia.
  - unfold Locked.dequeue. destruct q as [[|v rest] M']; simpl in *.
    + by eexists _, item, (Dequeued false item).
    + eexists _, v, (Dequeued true v). split; [done|]. split; [|done].
      simpl. unfold size_of in *. simpl in Hs. lia.
Qed.

(** What the producer's calls leave in the queue: the elements there
    was room for. *)
Lemma producer_calls_spec (xs : list T) q :
  Locked.producer_calls q xs
  = Locked.Build
      (Locked.queue_ q
       ++ take (Z.to_nat (Locked.max_size_ q - size_of (Locked.queue_ q))) xs)
      (Locked.max_size_ q).
Proof.
  revert q. induction xs as [|x xs IH]; intros q.
  - simpl. rewrite take_nil, app_nil_r. by destruct q.
  - simpl. destruct (locked_enqueue_spec q x) as [(Hfull & ->)|(Hroom & ->)];
      simpl; rewrite IH; simpl.
    + replace (Z.to_nat (Locked.max_size_ q - size_of (Locked.queue_ q)))
        with 0%nat by lia.
      by rewrite !take_0.
    + unfold size_of in *. rewrite length_app. simpl.
      replace (Z.to_nat (Locked.max_size_ q - Z.of_nat (length (Locked.queue_ q))))
        with (S (Z.to_nat (Locked.max_size_ q
                           - Z.of_nat (length (Locked.queue_ q) + 1))))
        by lia.
      by rewrite <- (assoc_L (++)).
Qed.

Lemma dequeue_blocking_unfold (arrivals : list (list T)) q :
  Locked.dequeue_blocking arrivals q
  = match Locked.queue_ q with
    | front :: rest =>
        Some (front, Locked.Build rest (Locked.max_size_ q), arrivals)
    | [] =>
        match arrivals with
        | [] => None
        | xs :: arrivals =>
            Locked.dequeue_blocking arrivals (Locked.producer_calls q xs)
        end
    end.
Proof. by destruct arrivals. Qed.

Lemma dequeue_blocking_spurious (k : nat) q :
  Locked.queue_ q = [] ->
  Locked.dequeue_blocking (replicate k []) q = None.
Proof.
  intros Hq. induction k as [|k IH]; simpl; rewrite Hq; [done|].
  by destruct q.
Qed.
End LockedMore.

(** X6.  In every run from a fresh [LockedQueue] with [max_size = M],
    [size()] is the number of elements enqueued and not yet dequeued
    and never exceeds [capacity()], which stays [M]; [full()] holds
    exactly when [size()] is [M], and [empty()] exactly when it is 0. *)
Theorem locked_size_bounded {T : Type} (M : Z) (calls : list (call T))
    (item : T) :
  0 <= M ->
  exists q item' log,
    run Locked.step calls (Locked.construct M) item = Some (q, item', log) /\
    Locked.size q = size_of (enqueued log) - size_of (dequeued log) /\
    0 <= Locked.size q <= Locked.capacity q /\
    Locked.capacity q = M /\
    (Locked.full q = true <-> Locked.size q = M) /\
    (Locked.empty q = true <-> Locked.size q = 0).
Proof.
  intros HM.
  destruct (locked_run M calls item) as (q & item' & log & Hr & Hlog).
  destruct (run_safe _ _ _ _ (locked_bounded_step M) calls
              (Locked.construct M) item)
    as (q2 & item2 & log2 & Hr2 & [Hs Hcap] & _);
    [by unfold size_of | apply permitted_always |].
  rewrite Hr in Hr2. injection Hr2 as <- <- <-.
  exists q, item', log. split; [done|].
  apply (f_equal length) in Hlog. rewrite length_app in Hlog.
  unfold Locked.size, Locked.capacity, Locked.full, Locked.empty,
    Locked.contents, size_of in *.
  rewrite Hcap, Z.geb_leb, Z.leb_le.
  destruct (Locked.queue_ q) as [|v rest]; simpl in *; split_and!; lia.
Qed.

Lemma locked_size_bounded_witness :
  0 <= 2 /\
  exists q item' log,
    run Locked.step
        [Enqueue 1; Enqueue 2; Enqueue 3; Dequeue; Enqueue 4]
        (Locked.construct 2) 0 = Some (q, item', log) /\
    Locked.size q = size_of (enqueued log) - size_of (dequeued log) /\
    0 <= Locked.size q <= Locked.capacity q /\
    Locked.capacity q = 2 /\
    (Locked.full q = true <-> Locked.size q = 2) /\
    (Locked.empty q = true <-> Locked.size q = 0).
Proof.
  assert (HM : 0 <= 2) by discriminate.
  split; [exact HM|].
  apply (locked_size_bounded 2
           [Enqueue 1; Enqueue 2; Enqueue 3; Dequeue; Enqueue 4] 0 HM).
Defined.

(** X7.  The consumer's last loop on a [LockedQueue] holding no more
    than [SIZE_MAX] elements, started with [consumed = 0] and more fuel
    than [size()]: it ends with the queue empty, with [consumed] equal
    to the [size()] it started from and with [data] holding the element
    enqueued last (or its old value when there was none). *)
Theorem locked_consume_rest {T : Type} (q : @Locked.LockedQueue T)
    (fuel : nat) (data : T) :
  Locked.size q <= SIZE_MAX ->
  (Z.to_nat (Locked.size q) < fuel)%nat ->
  Harness.consume_rest Locked.empty (fun q d => Some (Locked.dequeue q d))
                       fuel q data 0
  = Some (Locked.Build [] (Locked.max_size_ q),
          List.last (Locked.queue_ q) data, Locked.size q).
Proof.
  unfold Locked.size, size_of. intros Hmax Hfuel.
  destruct (consume_rest_spec Locked.empty
              (fun q d => Some (Locked.dequeue q d))
              (fun q' : @Locked.LockedQueue T =>
                 Locked.max_size_ q' = Locked.max_size_ q)
              Locked.contents)
    with (fuel := fuel) (q := q) (data := data) (consumed := 0)
    as (q' & Hrun & Hcap & Hnil).
  - intros [[|v rest] M] _; by unfold Locked.empty, Locked.contents.
  - intros [[|v rest] M] d HM Hne; [done|].
    by eexists v, _.
  - done.
  - unfold Locked.contents. lia.
  - rewrite Hrun. unfold Locked.contents in *. f_equal. f_equal.
    + f_equal. destruct q' as [l M']. simpl in *. by subst.
    + destruct (decide (Locked.queue_ q = [])) as [Hd|_].
      * by rewrite Hd.
      * rewrite Z.add_0_l. apply wrap_small. unfold is_size_t, size_of. lia.
Qed.

Lemma locked_consume_rest_witness :
  Locked.size Samples.full_locked <= SIZE_MAX /\
  Harness.consume_rest Locked.empty (fun q d => Some (Locked.dequeue q d))
                       3 Samples.full_locked 9 0
  = Some (Locked.Build [] 2, 2, 2).
Proof.
  assert (Hmax : Locked.size Samples.full_locked <= SIZE_MAX) by discriminate.
  split; [exact Hmax|].
  apply (locked_consume_rest Samples.full_locked 3 9 Hmax).
  vm_compute. reflexivity.
Defined.

(** X8.  [dequeue_blocking] on an empty [LockedQueue] with room for one
    element at least: wake-ups at which the producer has enqueued
    nothing leave it waiting, however many there are; at the first
    wake-up after the producer has enqueued [x] and then [xs], it
    returns [x] and leaves in the queue the elements of [xs] there was
    room for.  On a queue that is not empty it returns at once what
    [dequeue] returns. *)
Theorem dequeue_blocking_waits {T : Type} (q : @Locked.LockedQueue T)
    (k : nat) (x : T) (xs : list T) (later : list (list T)) :
  Locked.queue_ q = [] ->
  1 <= Locked.max_size_ q ->
  Locked.dequeue_blocking (replicate k []) q = None /\
  Locked.dequeue_blocking (replicate k [] ++ (x :: xs) :: later) q
  = Some (x,
          Locked.Build (take (Z.to_nat (Locked.max_size_ q - 1)) xs)
                       (Locked.max_size_ q),
          later) /\
  (forall (q' : @Locked.LockedQueue T) (arrivals : list (list T)) (item : T),
     Locked.queue_ q' <> [] ->
     Locked.dequeue_blocking arrivals q'
     = Some ((Locked.dequeue q' item).1.2, (Locked.dequeue q' item).2,
             arrivals)).
Proof.
  intros Hq HM. split; [by apply dequeue_blocking_spurious|]. split.
  - induction k as [|k IH].
    + rewrite app_nil_l, dequeue_blocking_unfold, Hq.
      rewrite producer_calls_spec, Hq, dequeue_blocking_unfold.
      unfold size_of. simpl.
      replace (Z.to_nat (Locked.max_size_ q - Z.of_nat 0))
        with (S (Z.to_nat (Locked.max_size_ q - 1))) by lia.
      done.
    + cbn [replicate app]. rewrite dequeue_blocking_unfold, Hq.
      replace (Locked.producer_calls q []) with q by done. apply IH.
  - intros [[|v rest] M] arrivals item Hne; [done|]. by destruct arrivals.
Qed.

Lemma dequeue_blocking_waits_witness :
  Locked.queue_ Samples.empty_locked = [] /\
  1 <= Locked.max_size_ Samples.empty_locked /\
  Locked.dequeue_blocking [[]; []; [5; 6; 7]; [8]] Samples.empty_locked
  = Some (5, Locked.Build [6] 2, [[8]]).
Proof.
  assert (Hq : Locked.queue_ Samples.empty_locked = []) by reflexivity.
  assert (HM : 1 <= Locked.max_size_ Samples.empty_locked) by discriminate.
  split; [exact Hq|]. split; [exact HM|].
  apply (dequeue_blocking_waits Samples.empty_locked 2 5 [6; 7] [[8]] Hq HM).
Defined.

(** ** DoubleBufferSPSC: the other methods *)

Section DoubleBufferMore.
Context {T : Type}.
Variable moved_from : T -> T.

Implicit Types q : @DoubleBuffer.DoubleBufferSPSC T.

Lemma db_unread_length q :
  DoubleBuffer.wf q ->
  size_of (DoubleBuffer.unread q)
  = size_of (DoubleBuffer.deref q (DoubleBuffer.read_buffer_ q))
    - DoubleBuffer.read_index_ q.
Proof.
  intros (_ & Hri & _). unfold DoubleBuffer.unread, size_of in *.
  rewrite length_drop. lia.
Qed.

(** Without [swap_buffers] the consumer gets what was published
    before, and nothing else. *)
Lemma db_run_unpublished calls q item :
  DoubleBuffer.wf q ->
  forallb (fun c => negb (DoubleBuffer.is_swap c)) calls = true ->
  exists q' item' log,
    run (DoubleBuffer.step moved_from) calls q item = Some (q', item', log) /\
    DoubleBuffer.wf q' /\
    DoubleBuffer.unread q = dequeued log ++ DoubleBuffer.unread q'.
Proof.
  revert q item. induction calls as [|c calls IH]; intros q item Hq Hcalls.
  - by exists q, item, [].
  - simpl in Hcalls. apply andb_true_iff in Hcalls as [Hc Hcalls].
    assert (Hstep : exists q1 item1 o,
               DoubleBuffer.step moved_from c q item = Some (q1, item1, o) /\
               DoubleBuffer.wf q1 /\
               DoubleBuffer.unread q = dequeued [o] ++ DoubleBuffer.unread q1).
    { destruct c as [x| | |]; [| done | |]; simpl.
      - destruct (db_enqueue_spec q x Hq) as [->|(q1 & -> & Hq1 & Hu & _)].
        + by exists q, item, (Enqueued x false).
        + by exists q1, item, (Enqueued x true).
      - destruct (db_dequeue_spec moved_from q item Hq)
          as [(_ & ->)|(v & q1 & -> & Hq1 & Hu & _)]; simpl.
        + by exists q, item, (Dequeued false item).
        + by exists q1, v, (Dequeued true v).
      - destruct (db_poll_spec q false Hq) as (Hq1 & _).
        by exists (DoubleBuffer.store_buffer_swapped q false), item,
             (WasSwapped (DoubleBuffer.buffer_swapped_ q)). }
    destruct Hstep as (q1 & item1 & o & Hs & Hq1 & Ho).
    destruct (IH q1 item1 Hq1 Hcalls) as (q' & item' & log & Hr & Hq' & Hl).
    exists q', item', (o :: log). split; [by eapply run_cons|].
    split; [done|]. change (o :: log) with ([o] ++ log).
    by rewrite dequeued_app, <- (assoc_L (++)), <- Hl.
Qed.

(** A [buffer_was_swapped] that returns true uses up one
    [swap_buffers]. *)
Lemma db_run_flag_count calls q item :
  DoubleBuffer.wf q ->
  exists q' item' log,
    run (DoubleBuffer.step moved_from) calls q item = Some (q', item', log) /\
    DoubleBuffer.wf q' /\
    (seen_count log + (if DoubleBuffer.buffer_swapped_ q' then 1 else 0)
     <= swap_count log + (if DoubleBuffer.buffer_swapped_ q then 1 else 0))%nat.
Proof.
  revert q item. induction calls as [|c calls IH]; intros q item Hq.
  - exists q, item, []. simpl. split_and!; [done..|lia].
  - assert (Hstep : exists q1 item1 o,
               DoubleBuffer.step moved_from c q item = Some (q1, item1, o) /\
               DoubleBuffer.wf q1 /\
               (seen_count [o]
                + (if DoubleBuffer.buffer_swapped_ q1 then 1 else 0)
                <= swap_count [o]
                   + (if DoubleBuffer.buffer_swapped_ q then 1 else 0))%nat).
    { destruct c as [x| | |]; simpl.
      - destruct (db_enqueue_spec q x Hq)
          as [->|(q1 & -> & Hq1 & _ & _ & Hf)].
        + exists q, item, (Enqueued x false). split_and!; [done..|simpl; lia].
        + exists q1, item, (Enqueued x true). rewrite Hf.
          split_and!; [done..|simpl; lia].
      - exists (DoubleBuffer.swap_buffers q), item, Swapped.
        split_and!; [done | by apply db_swap_spec |].
        simpl. destruct (DoubleBuffer.buffer_swapped_ q); lia.
      - destruct (db_dequeue_spec moved_from q item Hq)
          as [(_ & ->)|(v & q1 & -> & Hq1 & _ & _ & Hf)]; simpl.
        + exists q, item, (Dequeued false item).
          split_and!; [done..|simpl; lia].
        + exists q1, v, (Dequeued true v). rewrite Hf.
          split_and!; [done..|simpl; lia].
      - destruct (db_poll_spec q false Hq) as (Hq1 & _).
        exists (DoubleBuffer.store_buffer_swapped q false), item,
          (WasSwapped (DoubleBuffer.buffer_swapped_ q)).
        split_and!; [done..|].
        simpl. destruct (DoubleBuffer.buffer_swapped_ q); simpl; lia. }
    destruct Hstep as (q1 & item1 & o & Hs & Hq1 & Ho).
    destruct (IH q1 item1 Hq1) as (q' & item' & log & Hr & Hq' & Hl).
    exists q', item', (o :: log). split; [by eapply run_cons|].
    split; [done|].
    assert (Hseen : seen_count (o :: log)
                    = (seen_count [o] + seen_count log)%nat)
      by (by destruct o as [? ?|? ?| |[|]]).
    assert (Hswap : swap_count (o :: log)
                    = (swap_count [o] + swap_count log)%nat)
      by (by destruct o as [? ?|? ?| |[|]]).
    lia.
Qed.
End DoubleBufferMore.

(** X9.  In every state of a run of [DoubleBufferSPSC] the write and
    the read role are held by different buffers, the read cursor lies
    between 0 and the size of the read buffer, neither buffer holds
    more than [capacity()] elements, and [write_buffer_full()] holds
    exactly when [write_buffer_size()] is [capacity()]. *)
Theorem db_state_invariants {T : Type} (moved_from : T -> T)
    (q : @DoubleBuffer.DoubleBufferSPSC T) :
  DoubleBuffer.reachable moved_from q ->
  DoubleBuffer.write_buffer_ q <> DoubleBuffer.read_buffer_ q /\
  0 <= DoubleBuffer.read_index_ q
    <= size_of (DoubleBuffer.deref q (DoubleBuffer.read_buffer_ q)) /\
  DoubleBuffer.write_buffer_size q <= DoubleBuffer.capacity q /\
  size_of (DoubleBuffer.deref q (DoubleBuffer.read_buffer_ q))
    <= DoubleBuffer.capacity q /\
  (DoubleBuffer.write_buffer_full q = true
   <-> DoubleBuffer.write_buffer_size q = DoubleBuffer.capacity q).
Proof.
  intros Hr. apply db_reachable_wf in Hr.
  destruct Hr as (Hne & Hri & Hb1 & Hb2 & HM).
  unfold DoubleBuffer.write_buffer_size, DoubleBuffer.write_buffer_full,
    DoubleBuffer.capacity.
  rewrite Z.geb_leb, Z.leb_le.
  destruct q as [b1 b2 [|] [|] f wi ri M]; simpl in *; try done;
    (split; [done|]); (split; [done|]); lia.
Qed.

Lemma db_state_invariants_witness :
  DoubleBuffer.reachable (fun _ : Z => 0) Samples.started_double /\
  DoubleBuffer.write_buffer_size Samples.started_double
    <= DoubleBuffer.capacity Samples.started_double.
Proof.
  assert (Hr : DoubleBuffer.reachable (fun _ : Z => 0) Samples.started_double).
  { apply DoubleBuffer.reach_enqueue, DoubleBuffer.reach_construct.
    split; discriminate. }
  split; [exact Hr|].
  destruct (db_state_invariants (fun _ : Z => 0) Samples.started_double Hr)
    as (_ & _ & Hw & _).
  exact Hw.
Defined.

(** X10.  In every state of a run, [has_data()] tells what the next
    [dequeue] does: when it is true [dequeue] returns true, when it is
    false [dequeue] returns false and changes nothing; and
    [read_buffer_remaining()] is the number of elements still unread in
    the read buffer, its subtraction never wrapping around. *)
Theorem db_has_data_dequeue {T : Type} (moved_from : T -> T)
    (q : @DoubleBuffer.DoubleBufferSPSC T) (item : T) :
  DoubleBuffer.reachable moved_from q ->
  (DoubleBuffer.has_data q = true ->
   exists v q', DoubleBuffer.dequeue moved_from q item = Some (true, v, q')) /\
  (DoubleBuffer.has_data q = false ->
   DoubleBuffer.dequeue moved_from q item = Some (false, item, q)) /\
  DoubleBuffer.read_buffer_remaining q = size_of (DoubleBuffer.unread q).
Proof.
  intros Hr. apply db_reachable_wf in Hr as Hq.
  pose proof (db_has_data q Hq) as Hd.
  pose proof (db_unread_length q Hq) as Hl.
  destruct (db_dequeue_spec moved_from q item Hq)
    as [(Hu & Hdeq)|(v & q' & Hdeq & _ & Hu & _)].
  - apply Hd in Hu as Hfalse. split_and!.
    + congruence.
    + done.
    + unfold DoubleBuffer.read_buffer_remaining. rewrite <- Hl.
      rewrite Hu. done.
  - split_and!.
    + intros _. by exists v, q'.
    + intros Hfalse%Hd. congruence.
    + unfold DoubleBuffer.read_buffer_remaining. rewrite <- Hl.
      apply wrap_small. destruct Hq as (Hne & Hri & Hb1 & Hb2 & HM).
      unfold is_size_t. split; [unfold size_of; lia|].
      rewrite Hl.
      destruct q as [b1 b2 [|] [|] f wi ri M]; simpl in *; lia.
Qed.

Lemma db_has_data_dequeue_witness :
  DoubleBuffer.reachable (fun _ : Z => 0)
    (DoubleBuffer.swap_buffers Samples.started_double) /\
  DoubleBuffer.has_data (DoubleBuffer.swap_buffers Samples.started_double)
    = true /\
  (exists v q',
     DoubleBuffer.dequeue (fun _ : Z => 0)
       (DoubleBuffer.swap_buffers Samples.started_double) 9
     = Some (true, v, q')).
Proof.
  assert (Hr : DoubleBuffer.reachable (fun _ : Z => 0)
                 (DoubleBuffer.swap_buffers Samples.started_double)).
  { apply DoubleBuffer.reach_swap_buffers, DoubleBuffer.reach_enqueue,
      DoubleBuffer.reach_construct.
    split; discriminate. }
  split; [exact Hr|]. split; [reflexivity|].
  destruct (db_has_data_dequeue (fun _ : Z => 0)
              (DoubleBuffer.swap_buffers Samples.started_double) 9 Hr)
    as (Hd & _).
  exact (Hd eq_refl).
Defined.

(** X11.  What is enqueued is not handed out before the next
    [swap_buffers]: in a run without [swap_buffers], from any state of
    a run, the values returned by [dequeue] are the first of the
    elements that were unread in the read buffer at its start, in
    order, and the rest of them is still unread at its end. *)
Theorem db_unpublished {T : Type} (moved_from : T -> T)
    (q : @DoubleBuffer.DoubleBufferSPSC T)
    (calls : list (DoubleBuffer.call T)) (item : T) :
  DoubleBuffer.reachable moved_from q ->
  forallb (fun c => negb (DoubleBuffer.is_swap c)) calls = true ->
  exists q' item' log,
    run (DoubleBuffer.step moved_from) calls q item = Some (q', item', log) /\
    DoubleBuffer.unread q = dequeued log ++ DoubleBuffer.unread q'.
Proof.
  intros Hr%db_reachable_wf Hcalls.
  destruct (db_run_unpublished moved_from calls q item Hr Hcalls)
    as (q' & item' & log & Hrun & _ & Hu).
  by exists q', item', log.
Qed.

Lemma db_unpublished_witness :
  DoubleBuffer.reachable (fun _ : Z => 0) (DoubleBuffer.construct 4) /\
  exists q' item' log,
    run (DoubleBuffer.step (fun _ : Z => 0))
        [DoubleBuffer.CEnqueue 1; DoubleBuffer.CEnqueue 2;
         DoubleBuffer.CDequeue; DoubleBuffer.CDequeue]
        (DoubleBuffer.construct 4) 0 = Some (q', item', log) /\
    [] = dequeued log ++ DoubleBuffer.unread q'.
Proof.
  assert (Hr : DoubleBuffer.reachable (fun _ : Z => 0)
                 (DoubleBuffer.construct 4)).
  { apply DoubleBuffer.reach_construct. split; discriminate. }
  split; [exact Hr|].
  apply (db_unpublished (fun _ : Z => 0) (DoubleBuffer.construct 4)
           [DoubleBuffer.CEnqueue 1; DoubleBuffer.CEnqueue 2;
            DoubleBuffer.CDequeue; DoubleBuffer.CDequeue] 0 Hr eq_refl).
Defined.

(** X12.  Whatever the calls of a run from a fresh [DoubleBufferSPSC],
    with [swap_buffers] at any time: the values returned by the
    successful [dequeue]s are values taken by the successful
    [enqueue]s, in the same order and each at most once.  A premature
    [swap_buffers] loses elements; it never repeats or reorders
    them. *)
Theorem db_subsequence {T : Type} (moved_from : T -> T) (M : Z)
    (calls : list (DoubleBuffer.call T)) (item : T) :
  is_size_t M ->
  exists q item' log,
    run (DoubleBuffer.step moved_from) calls (DoubleBuffer.construct M) item
      = Some (q, item', log) /\
    dequeued log `sublist_of` enqueued log.
Proof.
  intros HM.
  destruct (run_lossy _ _ _ (db_lossy_step moved_from) calls
              (DoubleBuffer.construct M) item (db_wf_construct M HM))
    as (q & item' & log & Hr & _ & Hl).
  exists q, item', log. split; [done|].
  rewrite db_contents_construct in Hl. simpl in Hl.
  trans (dequeued log ++ DoubleBuffer.contents q); [|done].
  by apply sublist_inserts_r.
Qed.

Lemma db_subsequence_witness :
  is_size_t 2 /\
  exists q item' log,
    run (DoubleBuffer.step (fun _ : Z => 0))
        [DoubleBuffer.CEnqueue 1; DoubleBuffer.CEnqueue 2;
         DoubleBuffer.CSwapBuffers; DoubleBuffer.CDequeue;
         DoubleBuffer.CEnqueue 3; DoubleBuffer.CSwapBuffers;
         DoubleBuffer.CDequeue]
        (DoubleBuffer.construct 2) 0 = Some (q, item', log) /\
    dequeued log `sublist_of` enqueued log.
Proof.
  assert (HM : is_size_t 2) by (split; discriminate).
  split; [exact HM|].
  apply (db_subsequence (fun _ : Z => 0) 2
           [DoubleBuffer.CEnqueue 1; DoubleBuffer.CEnqueue 2;
            DoubleBuffer.CSwapBuffers; DoubleBuffer.CDequeue;
            DoubleBuffer.CEnqueue 3; DoubleBuffer.CSwapBuffers;
            DoubleBuffer.CDequeue] 0 HM).
Defined.

(** X13.  Two [swap_buffers] in a row, in a state whose roles are held
    by different buffers, leave both buffers empty and the roles where
    they were: everything enqueued and not yet dequeued is gone. *)
Theorem db_double_swap {T : Type} (q : @DoubleBuffer.DoubleBufferSPSC T) :
  DoubleBuffer.write_buffer_ q <> DoubleBuffer.read_buffer_ q ->
  DoubleBuffer.swap_buffers (DoubleBuffer.swap_buffers q)
  = DoubleBuffer.Build [] [] (DoubleBuffer.write_buffer_ q)
      (DoubleBuffer.read_buffer_ q) true (DoubleBuffer.write_index_ q) 0
      (DoubleBuffer.max_size_ q).
Proof. by destruct q as [b1 b2 [|] [|] f wi ri M]. Qed.

Lemma db_double_swap_witness :
  DoubleBuffer.write_buffer_ Samples.busy_double
    <> DoubleBuffer.read_buffer_ Samples.busy_double /\
  DoubleBuffer.swap_buffers (DoubleBuffer.swap_buffers Samples.busy_double)
  = DoubleBuffer.Build [] [] DoubleBuffer.Buffer1 DoubleBuffer.Buffer2
      true 0 0 8.
Proof.
  assert (Hne : DoubleBuffer.write_buffer_ Samples.busy_double
                <> DoubleBuffer.read_buffer_ Samples.busy_double)
    by discriminate.
  split; [exact Hne|].
  apply (db_double_swap Samples.busy_double Hne).
Defined.

Lemma enqueue_swapping_unfold {T : Type} (fuel : nat)
    (q : @DoubleBuffer.DoubleBufferSPSC T) (msg : T) :
  Harness.enqueue_swapping (S fuel) q msg
  = if (DoubleBuffer.enqueue q msg).1 then Some (DoubleBuffer.enqueue q msg).2
    else Harness.enqueue_swapping fuel
           (DoubleBuffer.swap_buffers (DoubleBuffer.enqueue q msg).2) msg.
Proof. simpl. by destruct (DoubleBuffer.enqueue q msg) as [[|] q']. Qed.

(** X14.  The producer's loop [while (!queue.enqueue(msg))
    queue.swap_buffers();] on a queue for one element at least, in a
    state whose roles are held by different buffers, ends after at most
    one [swap_buffers].  With room in the write buffer it is a plain
    [enqueue].  With the write buffer full it swaps once: the full
    buffer becomes the read buffer, [msg] is alone in the write buffer,
    and what was unread in the old read buffer is gone. *)
Theorem enqueue_swapping_once {T : Type}
    (q : @DoubleBuffer.DoubleBufferSPSC T) (msg : T) (fuel : nat) :
  DoubleBuffer.write_buffer_ q <> DoubleBuffer.read_buffer_ q ->
  1 <= DoubleBuffer.max_size_ q ->
  (2 <= fuel)%nat ->
  exists q',
    Harness.enqueue_swapping fuel q msg = Some q' /\
    ((DoubleBuffer.write_buffer_full q = false /\
      q' = (DoubleBuffer.enqueue q msg).2 /\
      DoubleBuffer.deref q' (DoubleBuffer.write_buffer_ q')
        = DoubleBuffer.deref q (DoubleBuffer.write_buffer_ q) ++ [msg] /\
      DoubleBuffer.unread q' = DoubleBuffer.unread q) \/
     (DoubleBuffer.write_buffer_full q = true /\
      q' = (DoubleBuffer.enqueue (DoubleBuffer.swap_buffers q) msg).2 /\
      DoubleBuffer.deref q' (DoubleBuffer.write_buffer_ q') = [msg] /\
      DoubleBuffer.unread q'
        = DoubleBuffer.deref q (DoubleBuffer.write_buffer_ q))).
Proof.
  intros Hne HM Hfuel.
  destruct fuel as [|[|fuel]]; [lia..|].
  rewrite enqueue_swapping_unfold.
  unfold DoubleBuffer.write_buffer_full.
  destruct (size_of (DoubleBuffer.deref q (DoubleBuffer.write_buffer_ q))
            >=? DoubleBuffer.max_size_ q) eqn:Hfull.
  - assert (He : DoubleBuffer.enqueue q msg = (false, q))
      by (unfold DoubleBuffer.enqueue; by rewrite Hfull).
    rewrite He. cbn [fst snd]. rewrite enqueue_swapping_unfold.
    assert (Hs : DoubleBuffer.enqueue (DoubleBuffer.swap_buffers q) msg
                 = (true,
                    DoubleBuffer.assign (DoubleBuffer.swap_buffers q)
                      (DoubleBuffer.read_buffer_ q) [msg])).
    { unfold DoubleBuffer.enqueue. rewrite Z.geb_leb.
      destruct (Z.leb_spec
                  (DoubleBuffer.max_size_ (DoubleBuffer.swap_buffers q))
                  (size_of (DoubleBuffer.deref (DoubleBuffer.swap_buffers q)
                     (DoubleBuffer.write_buffer_
                        (DoubleBuffer.swap_buffers q))))) as [Hle|_].
      - exfalso.
        destruct q as [b1 b2 [|] [|] f wi ri M]; simpl in *; try done;
          unfold size_of in Hle; simpl in Hle; lia.
      - by destruct q as [b1 b2 [|] [|] f wi ri M]. }
    rewrite Hs. cbn [fst snd]. eexists. split; [done|]. right.
    split; [done|]. split; [done|].
    by destruct q as [b1 b2 [|] [|] f wi ri M].
  - assert (He : DoubleBuffer.enqueue q msg
                 = (true,
                    DoubleBuffer.assign q (DoubleBuffer.write_buffer_ q)
                      (DoubleBuffer.deref q (DoubleBuffer.write_buffer_ q)
                       ++ [msg])))
      by (unfold DoubleBuffer.enqueue; by rewrite Hfull).
    rewrite He. cbn [fst snd]. eexists. split; [done|]. left.
    split; [done|]. split; [done|].
    by destruct q as [b1 b2 [|] [|] f wi ri M].
Qed.

Lemma enqueue_swapping_once_witness :
  DoubleBuffer.write_buffer_ Samples.full_double
    <> DoubleBuffer.read_buffer_ Samples.full_double /\
  1 <= DoubleBuffer.max_size_ Samples.full_double /\
  exists q',
    Harness.enqueue_swapping 2 Samples.full_double 9 = Some q' /\
    DoubleBuffer.deref q' (DoubleBuffer.write_buffer_ q') = [9] /\
    DoubleBuffer.unread q' = [1; 2].
Proof.
  assert (Hne : DoubleBuffer.write_buffer_ Samples.full_double
                <> DoubleBuffer.read_buffer_ Samples.full_double)
    by discriminate.
  assert (HM : 1 <= DoubleBuffer.max_size_ Samples.full_double)
    by discriminate.
  split; [exact Hne|]. split; [exact HM|].
  destruct (enqueue_swapping_once Samples.full_double 9 2 Hne HM (le_n 2))
    as (q' & Hrun & [(Hfull & _)|(_ & _ & Hw & Hu)]).
  - discriminate Hfull.
  - exists q'. split; [exact Hrun|]. split; [exact Hw | exact Hu].
Defined.

(** X15.  On a [DoubleBufferSPSC] built with [max_size = 0] the
    producer's loop never ends: [enqueue] refuses before and after
    every [swap_buffers], whatever the fuel. *)
Theorem enqueue_swapping_never {T : Type}
    (q : @DoubleBuffer.DoubleBufferSPSC T) (msg : T) (fuel : nat) :
  DoubleBuffer.max_size_ q <= 0 ->
  Harness.enqueue_swapping fuel q msg = None.
Proof.
  revert q. induction fuel as [|fuel IH]; intros q HM; [done|].
  rewrite enqueue_swapping_unfold.
  assert (He : DoubleBuffer.enqueue q msg = (false, q)).
  { unfold DoubleBuffer.enqueue. rewrite Z.geb_leb.
    destruct (Z.leb_spec (DoubleBuffer.max_size_ q)
                (size_of (DoubleBuffer.deref q
                            (DoubleBuffer.write_buffer_ q))))
      as [_|Hlt]; [done | unfold size_of in Hlt; lia]. }
  rewrite He. cbn [fst snd]. apply IH.
  by destruct q as [b1 b2 w [|] f wi ri M].
Qed.

Lemma enqueue_swapping_never_witness :
  DoubleBuffer.max_size_ (DoubleBuffer.construct (T:=Z) 0) <= 0 /\
  Harness.enqueue_swapping 5 (DoubleBuffer.construct 0) 9 = None.
Proof.
  assert (HM : DoubleBuffer.max_size_ (DoubleBuffer.construct (T:=Z) 0) <= 0)
    by discriminate.
  split; [exact HM|].
  apply (enqueue_swapping_never (DoubleBuffer.construct 0) 9 5 HM).
Defined.

(** X16.  The consumer's last loop on a [DoubleBufferSPSC], started in
    a state of a run with [consumed = 0] and more fuel than
    [read_buffer_remaining()]: it ends with [has_data()] false, with
    [consumed] equal to the [read_buffer_remaining()] it started from
    and with [data] holding the last element of the read buffer (or
    its old value when nothing was unread).  The write buffer is as it
    was: what the producer has not published stays behind. *)
Theorem db_consume_rest {T : Type} (moved_from : T -> T)
    (q : @DoubleBuffer.DoubleBufferSPSC T) (fuel : nat) (data : T) :
  DoubleBuffer.reachable moved_from q ->
  (Z.to_nat (DoubleBuffer.read_buffer_remaining q) < fuel)%nat ->
  exists q',
    Harness.consume_rest (fun q => negb (DoubleBuffer.has_data q))
                         (DoubleBuffer.dequeue moved_from) fuel q data 0
      = Some (q', List.last (DoubleBuffer.unread q) data,
              DoubleBuffer.read_buffer_remaining q) /\
    DoubleBuffer.has_data q' = false /\
    DoubleBuffer.deref q' (DoubleBuffer.write_buffer_ q')
      = DoubleBuffer.deref q (DoubleBuffer.write_buffer_ q).
Proof.
  intros Hr Hfuel. apply db_reachable_wf in Hr as Hq.
  destruct (db_has_data_dequeue moved_from q data Hr) as (_ & _ & Hrem).
  rewrite Hrem in Hfuel |- *.
  set (W := DoubleBuffer.deref q (DoubleBuffer.write_buffer_ q)).
  destruct (consume_rest_spec (fun q => negb (DoubleBuffer.has_data q))
              (DoubleBuffer.dequeue moved_from)
              (fun q' => DoubleBuffer.wf q' /\
                 DoubleBuffer.deref q' (DoubleBuffer.write_buffer_ q') = W)
              DoubleBuffer.unread)
    with (fuel := fuel) (q := q) (data := data) (consumed := 0)
    as (q' & Hrun & [Hq' HW] & Hnil).
  - intros q0 [Hq0 _]. rewrite negb_true_iff. by apply db_has_data.
  - intros q0 d [Hq0 HW0] Hne.
    destruct (db_dequeue_spec moved_from q0 d Hq0)
      as [(Hu & _)|(v & q1 & Hd & Hq1 & Hu & Hw & _)]; [done|].
    exists v, q1. split_and!; [done..|congruence|done].
  - done.
  - unfold size_of in Hfuel. lia.
  - exists q'. split; [|split; [by apply db_has_data|done]].
    rewrite Hrun. f_equal. f_equal.
    destruct (decide (DoubleBuffer.unread q = [])) as [Hd|_].
    + by rewrite Hd.
    + rewrite Z.add_0_l, <- Hrem.
      unfold DoubleBuffer.read_buffer_remaining, wrap. apply Zmod_mod.
Qed.

Lemma db_consume_rest_witness :
  DoubleBuffer.reachable (fun _ : Z => 0)
    (DoubleBuffer.swap_buffers Samples.started_double) /\
  exists q',
    Harness.consume_rest (fun q => negb (DoubleBuffer.has_data q))
                         (DoubleBuffer.dequeue (fun _ : Z => 0)) 2
                         (DoubleBuffer.swap_buffers Samples.started_double)
                         9 0
      = Some (q', 5, 1) /\
    DoubleBuffer.has_data q' = false.
Proof.
  assert (Hr : DoubleBuffer.reachable (fun _ : Z => 0)
                 (DoubleBuffer.swap_buffers Samples.started_double)).
  { apply DoubleBuffer.reach_swap_buffers, DoubleBuffer.reach_enqueue,
      DoubleBuffer.reach_construct.
    split; discriminate. }
  split; [exact Hr|].
  destruct (db_consume_rest (fun _ : Z => 0)
              (DoubleBuffer.swap_buffers Samples.started_double) 2 9 Hr)
    as (q' & Hrun & Hd & _).
  - vm_compute. reflexivity.
  - exists q'. split; [exact Hrun | exact Hd].
Defined.

(** X17.  In a run from a state of a run, [buffer_was_swapped] returns
    true at most once per [swap_buffers] (plus once for a swap not yet
    polled at the start): several swaps between two polls are seen as
    one, and no poll reports a swap that did not happen. *)
Theorem swapped_flag_counts {T : Type} (moved_from : T -> T)
    (q : @DoubleBuffer.DoubleBufferSPSC T)
    (calls : list (DoubleBuffer.call T)) (item : T) :
  DoubleBuffer.reachable moved_from q ->
  exists q' item' log,
    run (DoubleBuffer.step moved_from) calls q item = Some (q', item', log) /\
    (seen_count log
     <= swap_count log + (if DoubleBuffer.buffer_swapped_ q then 1 else 0))%nat.
Proof.
  intros Hr%db_reachable_wf.
  destruct (db_run_flag_count moved_from calls q item Hr)
    as (q' & item' & log & Hrun & _ & Hcount).
  exists q', item', log. split; [done|]. lia.
Qed.

Lemma swapped_flag_counts_witness :
  DoubleBuffer.reachable (fun _ : Z => 0) (DoubleBuffer.construct 4) /\
  exists q' item' log,
    run (DoubleBuffer.step (fun _ : Z => 0))
        [DoubleBuffer.CSwapBuffers; DoubleBuffer.CSwapBuffers;
         DoubleBuffer.CBufferWasSwapped; DoubleBuffer.CBufferWasSwapped]
        (DoubleBuffer.construct 4) 0 = Some (q', item', log) /\
    (seen_count log <= swap_count log + 0)%nat.
Proof.
  assert (Hr : DoubleBuffer.reachable (fun _ : Z => 0)
                 (DoubleBuffer.construct 4)).
  { apply DoubleBuffer.reach_construct. split; discriminate. }
  split; [exact Hr|].
  apply (swapped_flag_counts (fun _ : Z => 0) (DoubleBuffer.construct 4)
           [DoubleBuffer.CSwapBuffers; DoubleBuffer.CSwapBuffers;
            DoubleBuffer.CBufferWasSwapped; DoubleBuffer.CBufferWasSwapped]
           0 Hr).
Defined.
